(** * Demographics of the OG-USA model: [Python/3_demographics/demographics.py]

    The module builds [omega], the T x S x J array of population shares by
    period, age cohort and ability type, out of three rate models (survival,
    immigration, fertility) fitted to tables.

    Numbers.  The program computes with numpy floats.  They are modelled as
    exact rationals extended with the IEEE special values (+inf, -inf, NaN)
    and their propagation rules; rounding, overflow and signed zeros are not
    modelled.  Arrays are lists, matrices are lists of rows, the tensor is a
    list of matrices.  Python exceptions are [None] in the [option] monad.

    [numpy.polynomial.polynomial.polyfit] is library code (a least-squares
    solve); it is a parameter of the development.  The two csv tables are
    parameters as well. *)

From Stdlib Require Import List ZArith QArith Qcanon Lia Bool Arith.
Import ListNotations.
Close Scope Qc_scope.
Close Scope Q_scope.

Set Implicit Arguments.

(** ** Floating-point values *)

Module Float.

Inductive num : Type :=
| Fin (q : Qc)
| PInf
| NInf
| NaN.

Definition qc (n : Z) (d : positive) : Qc := Q2Qc (n # d)%Q.
Definition of_Z (z : Z) : num := Fin (Q2Qc (inject_Z z)).
Definition of_nat (n : nat) : num := of_Z (Z.of_nat n).

Definition Qcltb (a b : Qc) : bool :=
  match (a ?= b)%Qc with Lt => true | _ => false end.
Definition Qcleb (a b : Qc) : bool :=
  match (a ?= b)%Qc with Gt => false | _ => true end.

(** Sign of a rational as a comparison with zero. *)
Definition sgn (q : Qc) : comparison := (q ?= 0)%Qc.

Definition inf_of_sign (c : comparison) : num :=
  match c with Gt => PInf | Lt => NInf | Eq => NaN end.

Definition fneg (x : num) : num :=
  match x with
  | Fin q => Fin (- q)%Qc
  | PInf => NInf
  | NInf => PInf
  | NaN => NaN
  end.

Definition fadd (x y : num) : num :=
  match x, y with
  | NaN, _ | _, NaN => NaN
  | Fin a, Fin b => Fin (a + b)%Qc
  | PInf, NInf | NInf, PInf => NaN
  | PInf, _ | _, PInf => PInf
  | NInf, _ | _, NInf => NInf
  end.

Definition fsub (x y : num) : num := fadd x (fneg y).

Definition fmul (x y : num) : num :=
  match x, y with
  | NaN, _ | _, NaN => NaN
  | Fin a, Fin b => Fin (a * b)%Qc
  | Fin a, PInf | PInf, Fin a => inf_of_sign (sgn a)
  | Fin a, NInf | NInf, Fin a => inf_of_sign (CompOpp (sgn a))
  | PInf, PInf | NInf, NInf => PInf
  | PInf, NInf | NInf, PInf => NInf
  end.

Definition fdiv (x y : num) : num :=
  match x, y with
  | NaN, _ | _, NaN => NaN
  | Fin a, Fin b =>
      match sgn b with
      | Eq => inf_of_sign (sgn a)
      | _ => Fin (a / b)%Qc
      end
  | Fin _, (PInf | NInf) => Fin 0%Qc
  | PInf, Fin b => match sgn b with Lt => NInf | _ => PInf end
  | NInf, Fin b => match sgn b with Lt => PInf | _ => NInf end
  | (PInf | NInf), (PInf | NInf) => NaN
  end.

(** Comparisons are [false] as soon as one side is NaN. *)
Definition flt (x y : num) : bool :=
  match x, y with
  | NaN, _ | _, NaN => false
  | Fin a, Fin b => Qcltb a b
  | NInf, NInf => false
  | NInf, _ => true
  | _, NInf => false
  | PInf, _ => false
  | Fin _, PInf => true
  end.

Definition fle (x y : num) : bool :=
  match x, y with
  | NaN, _ | _, NaN => false
  | Fin a, Fin b => Qcleb a b
  | NInf, _ => true
  | _, PInf => true
  | _, NInf => false
  | PInf, _ => false
  end.

(** [x == y] on floats. *)
Definition feqb (x y : num) : bool :=
  match x, y with
  | Fin a, Fin b => match (a ?= b)%Qc with Eq => true | _ => false end
  | PInf, PInf | NInf, NInf => true
  | _, _ => false
  end.

Definition fgt (x y : num) : bool := flt y x.
Definition fge (x y : num) : bool := fle y x.

Definition is_fin (x : num) : Prop :=
  match x with Fin _ => True | _ => False end.

End Float.
Export Float.

Declare Scope num_scope.
Delimit Scope num_scope with num.
Bind Scope num_scope with num.
Infix "+" := fadd : num_scope.
Infix "-" := fsub : num_scope.
Infix "*" := fmul : num_scope.
Infix "/" := fdiv : num_scope.
Infix "<?" := flt : num_scope.
Infix "<=?" := fle : num_scope.
Infix ">?" := fgt : num_scope.
Infix ">=?" := fge : num_scope.

(** ** Exceptions *)

Declare Scope error_scope.
Notation "x <- e ;; k" :=
  (match e with Some x => k | None => None end)
  (at level 61, e at next level, right associativity) : error_scope.
Notation "' p <- e ;; k" :=
  (match e with Some p => k | None => None end)
  (at level 61, p pattern, e at next level, right associativity) : error_scope.
Open Scope error_scope.

(** ** The numpy operations the module uses *)

Module Np.

Definition vec := list num.
Definition matrix := list vec.
Definition tensor := list matrix.

(** [l[a:b]] for non-negative [a] and [b]. *)
Definition slice (A : Type) (a b : nat) (l : list A) : list A :=
  skipn a (firstn b l).

(** [l[-1]], an IndexError on an empty array. *)
Definition last_item (A : Type) (l : list A) : option A :=
  match rev l with
  | [] => None
  | x :: _ => Some x
  end.

(** [l[-1] = v], an IndexError on an empty array. *)
Definition set_last (A : Type) (l : list A) (v : A) : option (list A) :=
  match l with
  | [] => None
  | _ => Some (removelast l ++ [v])
  end.

(** [np.linspace(a, b, n)]: [n] evenly spaced points, both ends included. *)
Definition linspace (a b : Qc) (n : nat) : vec :=
  let step := ((b - a) / Q2Qc (inject_Z (Z.of_nat (n - 1))))%Qc in
  map (fun i => Fin (a + Q2Qc (inject_Z (Z.of_nat i)) * step)%Qc) (seq 0 n).

(** [poly.polyval(x, c)]: Horner's scheme from the leading coefficient,
    [c0 = c[-1] + x*0] then [c0 = c[-i] + c0*x]. *)
Definition horner (rc : list num) (c0 : num) (x : num) : num :=
  fold_left (fun acc ci => (ci + acc * x)%num) rc c0.

Definition polyval (x : vec) (c : vec) : option vec :=
  match rev c with
  | [] => None
  | cn :: rc =>
      Some (map (fun xi => horner rc (cn + xi * Fin 0%Qc)%num xi) x)
  end.

(** [np.product], [np.sum], [np.mean] of a one-dimensional array. *)
Definition product (l : vec) : num := fold_left fmul l (Fin 1%Qc).
Definition sum (l : vec) : num := fold_left fadd l (Fin 0%Qc).
Definition mean (l : vec) : num := (sum l / of_nat (length l))%num.

(** [np.tile(v.reshape(n, 1), (1, J))]. *)
Definition tile_columns (v : vec) (J : nat) : matrix :=
  map (fun x => repeat x J) v.

Definition zeros (n : nat) : vec := repeat (Fin 0%Qc) n.
Definition zeros2 (n J : nat) : matrix := repeat (zeros J) n.

(** Elementwise combination of two arrays of the same length. *)
Fixpoint zip_with (A B C : Type) (op : A -> B -> C)
  (a : list A) (b : list B) : list C :=
  match a, b with
  | x :: a', y :: b' => op x y :: zip_with op a' b'
  | _, _ => []
  end.

(** Elementwise operation on two one-dimensional arrays with numpy's
    broadcasting: equal lengths, or one side of length one. *)

Definition mat_mul (a b : matrix) : matrix := zip_with (zip_with fmul) a b.

(** [m * c.reshape(n, 1)]: every row scaled by its own factor. *)
Definition scale_rows (m : matrix) (c : vec) : matrix :=
  zip_with (fun row ci => map (fun x => (x * ci)%num) row) m c.

(** [m.sum(0)] of an n x J matrix: the column sums. *)
Definition sum_axis0 (J : nat) (m : matrix) : vec :=
  fold_left (zip_with fadd) m (zeros J).

(** [l[n] = x] for [n] within bounds. *)
Fixpoint set_nth (A : Type) (n : nat) (x : A) (l : list A) : list A :=
  match l, n with
  | [], _ => []
  | _ :: l', O => x :: l'
  | y :: l', S n' => y :: set_nth n' x l'
  end.

(** [m[0, :] = v], an IndexError without a first row. *)
Definition assign_row0 (m : matrix) (v : vec) : option matrix :=
  match m with
  | [] => None
  | _ :: rest => Some (v :: rest)
  end.

(** [m[1:, :] = rows], [rows] having as many rows as [m[1:]]. *)
Definition assign_tail (m : matrix) (rows : matrix) : matrix :=
  match m with
  | [] => []
  | r0 :: _ => r0 :: rows
  end.

Definition broadcast (op : num -> num -> num) (a b : vec) : option vec :=
  if Nat.eqb (length a) (length b) then Some (zip_with op a b)
  else match a, b with
       | [x], _ => Some (map (op x) b)
       | _, [y] => Some (map (fun x => op x y) a)
       | _, _ => None
       end.

End Np.

(** ** The tables *)

(** A row of [mortality_rates.csv]. *)
Record mort_row : Type := {
  age : Z;
  prob_live_next_male : num;
  prob_live_next_female : num
}.

(** A row of [demographic_data.csv] once indexed by ['Age']: one population
    column per observation year. *)
Record pop_row : Type := {
  Age : Z;
  y2010 : num;
  y2011 : num;
  y2012 : num;
  y2013 : num
}.

Definition table := list pop_row.

(** State of the time loop of [get_omega]. *)
Record loop_state : Type := {
  omega_big : Np.tensor;
  children : Np.matrix
}.

(** [fert_data] and [age_midpoint], the constants of the module. *)
Definition fert_data : Np.vec :=
  map (fun x => (Fin x / Fin (qc 1000 1))%num)
    [qc 3 10; qc 266 10; qc 123 10; qc 473 10; qc 812 10;
     qc 1062 10; qc 987 10; qc 496 10; qc 105 10; qc 8 10].

Definition age_midpoint : Np.vec :=
  map Fin [qc 12 1; qc 17 1; qc 16 1; qc 185 10; qc 22 1;
           qc 27 1; qc 32 1; qc 37 1; qc 42 1; qc 495 10].

(** ** The module *)

Section Demographics.

Import Np.

(** [poly.polyfit(x, y, deg)]: the coefficients, lowest degree first, or an
    exception. *)
Variable polyfit : vec -> vec -> nat -> option vec.
(** [mort_data] as read from [mortality_rates.csv]. *)
Variable mort_data : list mort_row.
(** [data_raw]: the population table over its full age range. *)
Variable data_raw : table.

(** The module-level [data = data[16:76]], before any call of [get_omega]. *)
Definition data_init : table := slice 16 76 data_raw.

Definition mort_rate (r : mort_row) : num :=
  ((prob_live_next_male r + prob_live_next_female r) / Fin (qc 2 1))%num.

Definition surv_rate (r : mort_row) : num :=
  (Fin 1%Qc - mort_rate r)%num.

Definition children_rate : vec :=
  map surv_rate (filter (fun r => (age r <? 15)%Z) mort_data).

(** The re-binning loop shared by the three rate models:
    [out[s] = reduce(v[s*(60/S):(s+1)*(60/S)])] for [s] in [xrange(groups)],
    with Python 2's integer division. *)
Definition condense (reduce : vec -> num) (S groups : nat) (v : vec) : vec :=
  map (fun s => reduce (slice (s * (60 / S)) ((s + 1) * (60 / S)) v))
      (seq 0 groups).

(** *** Survival rates *)

Definition clamp_above_one (v : num) : num :=
  if (v >? Fin 1%Qc)%num then Fin 1%Qc else v.

(** [get_survival] from the evaluated polynomial on. *)
Definition survival_of_fit (survival_rate : vec) (S J : nat) : option matrix :=
  let survival_rate := map clamp_above_one survival_rate in
  let surv_rate_condensed := condense product S S survival_rate in
  surv_rate_condensed <- set_last surv_rate_condensed (Fin 0%Qc) ;;
  Some (tile_columns surv_rate_condensed J).

(** The fitted polynomial evaluated at the 60 points, before the clamp. *)
Definition survival_rate_fit : option vec :=
  poly_surv <- polyfit (map (fun r => of_Z (age r)) mort_data)
                       (map surv_rate mort_data) 10 ;;
  polyval (linspace (qc 15 1) (qc 75 1) 60) poly_surv.

Definition get_survival (S J : nat) : option matrix :=
  survival_rate <- survival_rate_fit ;;
  survival_of_fit survival_rate S J.

(** *** Immigration rates *)

(** The immigration factor the polynomial is fitted to. *)
Definition perc_change : option vec :=
  let pop_2010 := map y2010 data_raw in
  let pop_2011 := map y2011 data_raw in
  surv_array <- get_survival 60 1 ;;
  (* np.array(list(children_rate) + list(surv_array)): the scalars followed
     by the 60 one-element rows make the flat vector; without a leading
     scalar the array is 60 x 1 and the fit below rejects its shape *)
  surv_array <- match children_rate with
                | [] => None
                | _ => Some (children_rate ++ concat surv_array)
                end ;;
  pop_2010 <- broadcast fmul (slice 1 76 pop_2010) surv_array ;;
  let pop_2011 := slice 2 77 pop_2011 in
  d <- broadcast fsub pop_2011 pop_2010 ;;
  q <- broadcast fdiv d pop_2010 ;;
  let perc_change := map (fun x => (x + Fin 1%Qc)%num) q in
  Some (removelast perc_change).

Definition poly_imm : option vec :=
  perc_change <- perc_change ;;
  polyfit (linspace (qc 1 1) (qc 75 1) 74) perc_change 10.

(** [im_array]: the fitted polynomial evaluated on the grid it was fitted
    on. *)
Definition im_array : option vec :=
  poly_imm <- poly_imm ;;
  polyval (linspace (qc 1 1) (qc 75 1) 74) poly_imm.

Definition get_immigration (S J : nat) : option (matrix * vec) :=
  im_array <- im_array ;;
  let im_array2 := slice 15 76 im_array in
  match S with
  | O => None (* np.zeros(-1) *)
  | _ =>
      let imm_rate_condensed := condense product S (S - 1) im_array2 in
      let im_array2 := tile_columns imm_rate_condensed J in
      let children_im := slice 0 14 im_array in
      Some (im_array2, children_im)
  end.

(** *** Fertility rates *)

Definition fert_clamp (x v : num) : num :=
  let v := if (x >? Fin (qc 50 1))%num || (x <? Fin (qc 10 1))%num
           then Fin 0%Qc else v in
  if (v <? Fin 0%Qc)%num then Fin 0%Qc else v.

(** The 60 evaluated points after the two clamps of the loop. *)
Definition fert_rate_clamped : option vec :=
  poly_fert <- polyfit age_midpoint fert_data 4 ;;
  fert_rate <- polyval (linspace (qc 15 1) (qc 75 1) 60) poly_fert ;;
  Some (zip_with fert_clamp (linspace (qc 15 1) (qc 75 1) 60) fert_rate).

(** Whether the evaluation point [i] lies outside the ages 10 to 50, as the
    loop tests it. *)
Definition outside_fertile_ages (i : nat) : bool :=
  let x := nth i (linspace (qc 15 1) (qc 75 1) 60) NaN in
  (x >? Fin (qc 50 1))%num || (x <? Fin (qc 10 1))%num.

Definition get_fert (S J : nat) : option (matrix * matrix) :=
  fert_rate <- fert_rate_clamped ;;
  let fert_rate_condensed := condense mean S S fert_rate in
  let fert_rate := tile_columns fert_rate_condensed J in
  let fert_rate := map (map (fun x => (x / Fin (qc 2 1))%num)) fert_rate in
  let children := zeros2 15 J in
  Some (fert_rate, children).

(** *** The omega array *)

(** [data[col] /= float(sum)] for the four columns, every sum taken before
    the first division. *)
Definition normalize (data : table) : table :=
  let sum2010 := sum (map y2010 data) in
  let sum2011 := sum (map y2011 data) in
  let sum2012 := sum (map y2012 data) in
  let sum2013 := sum (map y2013 data) in
  map (fun r => {| Age := Age r;
                   y2010 := (y2010 r / sum2010)%num;
                   y2011 := (y2011 r / sum2011)%num;
                   y2012 := (y2012 r / sum2012)%num;
                   y2013 := (y2013 r / sum2013)%num |}) data.

Definition in_age_group (lo hi : num) (r : pop_row) : bool :=
  (lo <=? of_Z (Age r))%num && (of_Z (Age r) <? hi)%num.

(** [new_omega] before it is tiled: the 2010 share of each of the [S] age
    groups delimited by [age_groups]. *)
Definition new_omega_vec (data : table) (S : nat) : vec :=
  let age_groups := linspace (qc 16 1) (qc 76 1) (S + 1) in
  map (fun ind =>
         sum (map y2010
                (filter (in_age_group (nth ind age_groups NaN)
                                      (nth (ind + 1) age_groups NaN)) data)))
      (seq 0 S).

Definition new_omega (data : table) (S J : nat) : matrix :=
  map (map (fun x => (x / of_nat J)%num)) (tile_columns (new_omega_vec data S) J).

(** [(omega * fert_rate).sum(0)]. *)
Definition births (omega fert_rate : matrix) (J : nat) : vec :=
  sum_axis0 J (mat_mul omega fert_rate).

(** The fifteen rows of [children] before the time loop. *)
Definition children_init (omega0 fert_rate : matrix) (children_im : vec)
  (J : nat) : matrix :=
  map (fun ind =>
         map (fun x => (x * product (slice 0 ind children_rate)
                          * product (slice 0 ind children_im))%num)
             (births omega0 fert_rate J))
      (seq 0 15).

(** One pass of [for t in xrange(1, T)]. *)
Definition omega_step (surv_array imm_array fert_rate : matrix)
  (children_im : vec) (J : nat) (t : nat) (st : loop_state)
  : option loop_state :=
  c_last <- last_item (children st) ;;
  cr_last <- last_item children_rate ;;
  imm0 <- nth_error imm_array 0 ;;
  let row0 := zip_with fmul (map (fun x => (x * cr_last)%num) c_last) imm0 in
  cur <- nth_error (omega_big st) t ;;
  cur <- assign_row0 cur row0 ;;
  prev <- nth_error (set_nth t cur (omega_big st)) (t - 1) ;;
  let rows := mat_mul (mat_mul (removelast prev) (removelast surv_array))
                      imm_array in
  let cur := assign_tail cur rows in
  let omega_big' := set_nth t cur (omega_big st) in
  (* reshape(14, 1) of children_rate[:-1] and of children_im *)
  if Nat.eqb (length (removelast children_rate)) 14
     && Nat.eqb (length children_im) 14
  then
    let aged := scale_rows (scale_rows (removelast (children st))
                              (removelast children_rate)) children_im in
    let newborn := births cur fert_rate J in
    Some {| omega_big := omega_big'; children := newborn :: aged |}
  else None.

Fixpoint omega_loop (surv_array imm_array fert_rate : matrix)
  (children_im : vec) (J : nat) (ts : list nat) (st : loop_state)
  : option loop_state :=
  match ts with
  | [] => Some st
  | t :: ts' =>
      st' <- omega_step surv_array imm_array fert_rate children_im J t st ;;
      omega_loop surv_array imm_array fert_rate children_im J ts' st'
  end.

(** [get_omega] reads and rewrites the module-level [data]: the table is an
    argument and the table it leaves behind is returned with the array. *)
Definition get_omega (data : table) (S J T : nat) : option (tensor * table) :=
  let data := normalize data in
  let new_omega := new_omega data S J in
  surv_array <- get_survival S J ;;
  ' (imm_array, children_im) <- get_immigration S J ;;
  let tiled := repeat new_omega T in
  ' (fert_rate, _) <- get_fert S J ;;
  omega0 <- nth_error tiled 0 ;;
  let seeded := children_init omega0 fert_rate children_im J in
  st <- omega_loop surv_array imm_array fert_rate children_im J
          (seq 1 (T - 1))
          {| omega_big := tiled; children := seeded |} ;;
  Some (omega_big st, data).

End Demographics.

(** The state at the start of pass [t] of the time loop of [get_omega]: the
    loop run over [1 .. t-1] only. *)
Definition omega_state_before
  (polyfit : Np.vec -> Np.vec -> nat -> option Np.vec)
  (mort_data : list mort_row) (data_raw data : table) (S J T t : nat)
  : option loop_state :=
  surv_array <- get_survival polyfit mort_data S J ;;
  ' (imm_array, children_im) <- get_immigration polyfit mort_data data_raw S J ;;
  ' (fert_rate, _) <- get_fert polyfit S J ;;
  let tiled := repeat (new_omega (normalize data) S J) T in
  omega0 <- nth_error tiled 0 ;;
  omega_loop mort_data surv_array imm_array fert_rate children_im J
    (seq 1 (t - 1))
    {| omega_big := tiled;
       children := children_init mort_data omega0 fert_rate children_im J |}.

(** [get_immigration] from the evaluated polynomial on. *)
Definition immigration_of_fit (im_array : Np.vec) (S J : nat)
  : option (Np.matrix * Np.vec) :=
  let im_array2 := Np.slice 15 76 im_array in
  match S with
  | O => None
  | _ =>
      let imm_rate_condensed := condense Np.product S (S - 1) im_array2 in
      let im_array2 := Np.tile_columns imm_rate_condensed J in
      let children_im := Np.slice 0 14 im_array in
      Some (im_array2, children_im)
  end.

(** The state the time loop of [get_omega] starts from. *)
Definition init_state (mort_data : list mort_row) (data : table)
  (fert_rate : Np.matrix) (children_im : Np.vec) (S J T : nat) : loop_state :=
  {| omega_big := repeat (new_omega (normalize data) S J) T;
     children := children_init mort_data (new_omega (normalize data) S J)
                   fert_rate children_im J |}.

(** A population table as the loader leaves it: finite numbers in the four
    year columns, none of the yearly totals zero. *)
Definition finite_row (r : pop_row) : Prop :=
  is_fin (y2010 r) /\ is_fin (y2011 r) /\ is_fin (y2012 r) /\ is_fin (y2013 r).

Definition well_formed (data : table) : Prop :=
  Forall finite_row data /\
  Np.sum (map y2010 data) <> Fin 0%Qc /\
  Np.sum (map y2011 data) <> Fin 0%Qc /\
  Np.sum (map y2012 data) <> Fin 0%Qc /\
  Np.sum (map y2013 data) <> Fin 0%Qc.

(** The sum of all the entries of a matrix. *)
Definition sum_all (m : Np.matrix) : num := Np.sum (concat m).

(** ** Predicates of the statements *)


(** A finite value that is not negative. *)
Definition nonneg_value (x : num) : Prop :=
  exists q, x = Fin q /\ (0 <= q)%Qc.

(** The rational a finite value stands for, and the exact sum of a list of
    rationals. *)
Definition num_val (x : num) : Qc :=
  match x with Fin q => q | _ => 0%Qc end.

Definition qsum (l : list Qc) : Qc := fold_left Qcplus l 0%Qc.

Definition Qc_of_nat (n : nat) : Qc := Q2Qc (inject_Z (Z.of_nat n)).
Definition Qc_of_Z (z : Z) : Qc := Q2Qc (inject_Z z).

(** Every row repeats one value across the [J] columns. *)
Definition const_rows (J : nat) (m : Np.matrix) : Prop :=
  Forall (fun row => exists x, row = repeat x J) m.

(** Shapes in the time loop: [T] slices of [S] rows, fifteen rows of
    children, every row a broadcast over the [J] columns. *)
Definition state_inv (S J T : nat) (st : loop_state) : Prop :=
  length (omega_big st) = T /\
  Forall (fun m => length m = S /\ const_rows J m) (omega_big st) /\
  length (children st) = 15 /\
  const_rows J (children st).

(** ** What the specification words differently

    Definitions that follow the specification's text, to be compared with
    the ones above. *)

(** The fitted immigration polynomial evaluated at the integer ages
    [first], [first + 1], ... ([count] of them); the specification has it
    evaluated at every integer age 1 to 75. *)
Definition spec_im_array
  (polyfit : Np.vec -> Np.vec -> nat -> option Np.vec)
  (mort_data : list mort_row) (data_raw : table) (first count : nat)
  : option Np.vec :=
  c <- poly_imm polyfit mort_data data_raw ;;
  Np.polyval (map of_nat (seq first count)) c.

(** The 2010 fractions over the full raw age range: every count of
    [data_raw] over the divisor [get_omega] uses. *)
Definition spec_full_range_fractions (data_raw : table) : Np.vec :=
  let total := Np.sum (map y2010 (data_init data_raw)) in
  map (fun r => (y2010 r / total)%num) data_raw.

(** The 2010 population outside the rows 16 to 75. *)
Definition mass_outside (data_raw : table) : num :=
  Np.sum (map y2010 (firstn 16 data_raw ++ skipn 76 data_raw)).

(** ** Sample inputs *)

Module Sample.

Import Np.

(** A fit by the straight line through the first and the last data point,
    padded to [deg + 1] coefficients.  On data that lie on a line it is the
    least-squares polynomial. *)
Definition line_fit (x y : vec) (deg : nat) : option vec :=
  match x, y, last_item x, last_item y with
  | x0 :: _ :: _, y0 :: _ :: _, Some x1, Some y1 =>
      let slope := ((y1 - y0) / (x1 - x0))%num in
      Some ((y0 - slope * x0)%num :: slope :: repeat (Fin 0%Qc) (deg - 1))
  | _, _, _, _ => None
  end.

(** Ages 0 to 99, the death probability of both sexes growing by one in
    two hundred per year of age. *)
Definition mort : list mort_row :=
  map (fun a => {| age := Z.of_nat a;
                   prob_live_next_male := Fin (qc (Z.of_nat a) 200);
                   prob_live_next_female := Fin (qc (Z.of_nat a) 200) |})
      (seq 0 100).


(** Ages 0 to 79 with the same head count at every age, growing by one
    percent a year. *)
Definition pop : table :=
  map (fun a => {| Age := Z.of_nat a;
                   y2010 := of_Z 1000;
                   y2011 := of_Z 1010;
                   y2012 := of_Z 1020;
                   y2013 := of_Z 1030 |})
      (seq 0 80).

(** One run of [get_omega] on the sample tables: 3 cohorts, 2 ability
    types, 3 periods. *)
Abbreviation run := (get_omega line_fit mort pop (data_init pop) 3 2 3).

End Sample.

(** * Properties *)

(** ** Lists *)

Section ListFacts.

Import Np.
Variables A B C : Type.

Lemma zip_with_repeat (op : A -> B -> C) (a : A) (b : B) (n : nat) :
  zip_with op (repeat a n) (repeat b n) = repeat (op a b) n.
Proof. induction n; simpl; congruence. Qed.

Lemma zip_with_length (op : A -> B -> C) (a : list A) (b : list B) :
  length (zip_with op a b) = Nat.min (length a) (length b).
Proof.
  revert b; induction a as [|x a IH]; intros [|y b]; simpl; auto.
Qed.

Lemma In_removelast (l : list A) (x : A) : In x (removelast l) -> In x l.
Proof.
  induction l as [|y l IH]; simpl; [tauto|].
  destruct l as [|z l]; simpl in *; [tauto|].
  intros [H|H]; auto.
Qed.

Lemma length_removelast' (l : list A) : length (removelast l) = length l - 1.
Proof.
  induction l as [|y l IH]; simpl; [reflexivity|].
  destruct l as [|z l]; [reflexivity|].
  simpl in *. rewrite IH. lia.
Qed.


Lemma set_last_Some (l : list A) (v : A) :
  l <> [] -> set_last l v = Some (removelast l ++ [v]).
Proof. destruct l; [congruence | reflexivity]. Qed.

Lemma In_slice (a b : nat) (l : list A) (x : A) : In x (slice a b l) -> In x l.
Proof.
  unfold slice. intros H.
  eapply In_nth_error in H as [n H].
  rewrite nth_error_skipn in H.
  destruct (Nat.ltb_spec (a + n) b) as [Hlt|Hge].
  - rewrite nth_error_firstn in H.
    destruct (Nat.ltb_spec (a + n) b); [|lia].
    eapply nth_error_In; eauto.
  - rewrite nth_error_firstn in H.
    destruct (Nat.ltb_spec (a + n) b); [lia|discriminate].
Qed.

Lemma slice_length (a b : nat) (l : list A) :
  b <= length l -> length (slice a b l) = b - a.
Proof.
  intros H. unfold slice. rewrite length_skipn, length_firstn. lia.
Qed.

Lemma slice_firstn (a b n : nat) (l : list A) :
  b <= n -> slice a b (firstn n l) = slice a b l.
Proof.
  intros H. unfold slice. rewrite firstn_firstn.
  replace (Nat.min b n) with b by lia. reflexivity.
Qed.

Lemma nth_error_set_nth_eq (l : list A) (n : nat) (x : A) :
  n < length l -> nth_error (set_nth n x l) n = Some x.
Proof.
  revert n; induction l as [|y l IH]; intros [|n] H; simpl in *;
    try lia; auto with arith.
Qed.

Lemma nth_error_set_nth_neq (l : list A) (n i : nat) (x : A) :
  i <> n -> nth_error (set_nth n x l) i = nth_error l i.
Proof.
  revert n i; induction l as [|y l IH]; intros [|n] [|i] H; simpl in *;
    try congruence; auto.
Qed.

Lemma set_nth_length (l : list A) (n : nat) (x : A) :
  length (set_nth n x l) = length l.
Proof.
  revert n; induction l as [|y l IH]; intros [|n]; simpl; auto.
Qed.

End ListFacts.

(** ** Numbers *)

Lemma Qcleb_le (a b : Qc) : Qcleb a b = true <-> (a <= b)%Qc.
Proof.
  unfold Qcleb. rewrite Qcle_alt.
  destruct (a ?= b)%Qc; split; intros; congruence.
Qed.

Lemma Qcltb_lt (a b : Qc) : Qcltb a b = true <-> (a < b)%Qc.
Proof.
  unfold Qcltb. rewrite Qclt_alt.
  destruct (a ?= b)%Qc; split; intros; congruence.
Qed.

Lemma sgn_Eq (q : Qc) : sgn q = Eq <-> q = 0%Qc.
Proof. unfold sgn. symmetry. apply Qceq_alt. Qed.

Lemma fdiv_fin (a b : Qc) : b <> 0%Qc -> (Fin a / Fin b)%num = Fin (a / b)%Qc.
Proof.
  intros Hb. simpl. destruct (sgn b) eqn:E; auto.
  apply sgn_Eq in E. contradiction.
Qed.






(** ** The numpy conventions at work *)

Example product_of_empty : Np.product [] = Fin 1%Qc.
Proof. reflexivity. Qed.

Example mean_of_empty : Np.mean [] = NaN.
Proof. reflexivity. Qed.

Example broadcast_shape_error :
  Np.broadcast fmul [Fin 1%Qc; Fin 1%Qc] [Fin 1%Qc; Fin 1%Qc; Fin 1%Qc] = None.
Proof. reflexivity. Qed.

(** [linspace(15, 75, 60)] steps by 60/59, [linspace(1, 75, 74)] by 74/73:
    neither grid is the integer ages. *)
Example linspace_15_75_60_second :
  feqb (nth 1 (Np.linspace (qc 15 1) (qc 75 1) 60) NaN) (Fin (qc 945 59))
  = true.
Proof. vm_compute. reflexivity. Qed.

Example linspace_1_75_74_second :
  feqb (nth 1 (Np.linspace (qc 1 1) (qc 75 1) 74) NaN) (Fin (qc 147 73))
  = true.
Proof. vm_compute. reflexivity. Qed.

Example linspace_last :
  feqb (nth 59 (Np.linspace (qc 15 1) (qc 75 1) 60) NaN) (Fin (qc 75 1))
  = true.
Proof. vm_compute. reflexivity. Qed.

(** Python 2 integer division in the group bounds. *)
Example group_width_7 : 60 / 7 = 8 /\ 7 * (60 / 7) = 56.
Proof. split; reflexivity. Qed.

Example group_width_61 : 60 / 61 = 0.
Proof. reflexivity. Qed.

(** ** Survival rates *)

Section Survival.

Import Np.
Variable polyfit : vec -> vec -> nat -> option vec.
Variable mort_data : list mort_row.

Lemma condense_length (reduce : vec -> num) (S groups : nat) (v : vec) :
  length (condense reduce S groups v) = groups.
Proof. unfold condense. now rewrite length_map, length_seq. Qed.

Lemma tile_columns_length (v : vec) (J : nat) :
  length (tile_columns v J) = length v.
Proof. apply length_map. Qed.

Lemma tile_columns_rows (v : vec) (J : nat) :
  Forall (fun row => exists x, row = repeat x J) (tile_columns v J).
Proof.
  apply Forall_forall. intros row H.
  apply in_map_iff in H as (x & <- & _). now exists x.
Qed.

Lemma linspace_length (a b : Qc) (n : nat) : length (linspace a b n) = n.
Proof. unfold linspace. cbv zeta. now rewrite length_map, length_seq. Qed.

Lemma polyval_length (x c y : vec) :
  polyval x c = Some y -> length y = length x.
Proof.
  unfold polyval. destruct (rev c); [discriminate|].
  intros [= <-]. apply length_map.
Qed.

Lemma survival_rate_fit_length (v : vec) :
  survival_rate_fit polyfit mort_data = Some v -> length v = 60.
Proof.
  unfold survival_rate_fit.
  destruct polyfit as [c|]; [|discriminate].
  intros H. apply polyval_length in H. now rewrite linspace_length in H.
Qed.

(** What [get_survival] returns once the polynomial is evaluated. *)
Lemma get_survival_eq (S J : nat) (v : vec) :
  1 <= S ->
  survival_rate_fit polyfit mort_data = Some v ->
  get_survival polyfit mort_data S J =
  Some (tile_columns
          (removelast (condense product S S (map clamp_above_one v))
             ++ [Fin 0%Qc]) J).
Proof.
  intros HS Hv. unfold get_survival, survival_of_fit. rewrite Hv.
  rewrite set_last_Some; [reflexivity|].
  intros E. apply (f_equal (@length _)) in E.
  rewrite condense_length in E. simpl in E. lia.
Qed.

Lemma get_survival_length (S J : nat) (m : matrix) :
  1 <= S -> get_survival polyfit mort_data S J = Some m -> length m = S.
Proof.
  intros HS H.
  destruct (survival_rate_fit polyfit mort_data) as [v|] eqn:Hv.
  - rewrite (get_survival_eq J HS Hv) in H. injection H as <-.
    rewrite tile_columns_length, length_app, length_removelast'.
    rewrite condense_length. simpl. lia.
  - unfold get_survival in H. rewrite Hv in H. discriminate.
Qed.

Lemma get_survival_rows (S J : nat) (m : matrix) :
  get_survival polyfit mort_data S J = Some m ->
  Forall (fun row => exists x, row = repeat x J) m.
Proof.
  unfold get_survival, survival_of_fit.
  destruct survival_rate_fit; [|discriminate].
  destruct set_last; [|discriminate].
  intros [= <-]. apply tile_columns_rows.
Qed.


(** C8.  For a positive [S] that does not divide 60, [get_survival S J]
    raises nothing once the polynomial is evaluated: it returns an S x J
    matrix, and the points from index [S * (60 / S)] on, which exist, enter
    no product: the result is the one computed without them. *)
Theorem get_survival_nondivisor (S J : nat) (v : vec) :
  1 <= S -> 1 <= J -> 60 mod S <> 0 ->
  survival_rate_fit polyfit mort_data = Some v ->
  exists m,
    get_survival polyfit mort_data S J = Some m /\
    length m = S /\
    Forall (fun row => length row = J) m /\
    S * (60 / S) < length v /\
    survival_of_fit (firstn (S * (60 / S)) v) S J = Some m.
Proof.
  intros HS HJ Hmod Hv.
  pose proof (get_survival_eq J HS Hv) as E.
  eexists. split; [exact E|].
  split; [eapply get_survival_length; eassumption|].
  split.
  - apply Forall_forall. intros row Hrow.
    apply in_map_iff in Hrow as (y & <- & _). apply repeat_length.
  - split.
    + rewrite (survival_rate_fit_length Hv).
      pose proof (Nat.div_mod_eq 60 S). lia.
    + unfold survival_of_fit.
      assert (Hc : condense product S S
                     (map clamp_above_one (firstn (S * (60 / S)) v)) =
                   condense product S S (map clamp_above_one v)).
      { unfold condense. apply map_ext_in. intros s Hs.
        apply in_seq in Hs. rewrite <- firstn_map. f_equal.
        apply slice_firstn. nia. }
      rewrite Hc. rewrite set_last_Some; [reflexivity|].
      intros E'. apply (f_equal (@length _)) in E'.
      rewrite condense_length in E'. simpl in E'. lia.
Qed.

End Survival.

(** ** Fertility rates *)

Lemma Qcdiv_nonneg (a b : Qc) : (0 <= a)%Qc -> (0 < b)%Qc -> (0 <= a / b)%Qc.
Proof.
  unfold Qcle, Qclt. intros Ha Hb.
  assert (E : (this (a / b)%Qc == this a * / this b)%Q).
  { unfold Qcdiv, Qcmult, Qcinv, Q2Qc. cbn [this].
    now rewrite !Qred_correct. }
  rewrite E. change (this 0%Qc) with 0%Q in *.
  apply Qmult_le_0_compat; [assumption|].
  apply Qinv_le_0_compat. now apply Qlt_le_weak.
Qed.

Lemma of_nat_pos (n : nat) :
  1 <= n -> exists q, of_nat n = Fin q /\ (0 < q)%Qc.
Proof.
  intros Hn. eexists. split; [reflexivity|].
  change (0 < Qred (inject_Z (Z.of_nat n)))%Q. rewrite Qred_correct.
  unfold Qlt, inject_Z. cbn [Qnum Qden]. lia.
Qed.

Lemma nonneg_value_div (x y : num) :
  nonneg_value x -> (exists q, y = Fin q /\ (0 < q)%Qc) ->
  nonneg_value (x / y)%num.
Proof.
  intros (a & -> & Ha) (b & -> & Hb).
  rewrite fdiv_fin by (intros ->; revert Hb; apply Qcle_not_lt, Qcle_refl).
  eexists. split; [reflexivity|]. now apply Qcdiv_nonneg.
Qed.

Lemma sum_nonneg (l : Np.vec) :
  Forall nonneg_value l -> nonneg_value (Np.sum l).
Proof.
  unfold Np.sum.
  assert (H0 : nonneg_value (Fin 0%Qc))
    by (exists 0%Qc; split; [reflexivity | apply Qcle_refl]).
  revert H0. generalize (Fin 0%Qc) as acc.
  induction l as [|x l IH]; intros acc Hacc Hl; simpl; [assumption|].
  inversion Hl as [|? ? (b & -> & Hb) Hl']; subst.
  destruct Hacc as (a & -> & Ha).
  apply IH; [|assumption].
  eexists. split; [reflexivity|].
  replace 0%Qc with (0 + 0)%Qc by ring.
  now apply Qcplus_le_compat.
Qed.

Lemma sum_zeros (l : Np.vec) :
  Forall (fun x => x = Fin 0%Qc) l -> Np.sum l = Fin 0%Qc.
Proof.
  unfold Np.sum. induction l as [|x l IH]; intros Hl; simpl; [reflexivity|].
  inversion Hl; subst. simpl. rewrite Qcplus_0_l. now apply IH.
Qed.

Lemma nonneg_value_le (x : num) :
  nonneg_value x -> (Fin 0%Qc <=? x)%num = true.
Proof. intros (q & -> & H). now apply Qcleb_le. Qed.

Lemma horner_fin (rc : list num) (c0 x : num) :
  Forall is_fin rc -> is_fin c0 -> is_fin x -> is_fin (Np.horner rc c0 x).
Proof.
  unfold Np.horner. revert c0.
  induction rc as [|ci rc IH]; intros c0 Hrc Hc0 Hx; simpl; [assumption|].
  inversion Hrc; subst. apply IH; try assumption.
  destruct ci, c0, x; simpl in *; tauto.
Qed.

Lemma polyval_fin (x c y : Np.vec) :
  Forall is_fin x -> Forall is_fin c ->
  Np.polyval x c = Some y -> Forall is_fin y.
Proof.
  unfold Np.polyval. intros Hx Hc.
  assert (Hr : Forall is_fin (rev c)) by now apply Forall_rev.
  destruct (rev c) as [|cn rc]; [discriminate|].
  intros [= <-]. inversion Hr; subst.
  apply Forall_forall. intros z Hz.
  apply in_map_iff in Hz as (xi & <- & Hxi).
  rewrite Forall_forall in Hx. specialize (Hx _ Hxi).
  apply horner_fin; try assumption.
  destruct cn, xi; simpl in *; tauto.
Qed.

Lemma linspace_fin (a b : Qc) (n : nat) : Forall is_fin (Np.linspace a b n).
Proof.
  unfold Np.linspace. cbv zeta. apply Forall_forall. intros x Hx.
  apply in_map_iff in Hx as (i & <- & _). exact I.
Qed.

Lemma fert_clamp_nonneg (x v : num) :
  is_fin v -> nonneg_value (fert_clamp x v).
Proof.
  assert (H0 : nonneg_value (Fin 0%Qc))
    by (exists 0%Qc; split; [reflexivity | apply Qcle_refl]).
  unfold fert_clamp. intros Hv.
  destruct ((x >? Fin (qc 50 1))%num || (x <? Fin (qc 10 1))%num).
  - simpl. assumption.
  - destruct v as [q| | |]; try contradiction. simpl.
    destruct (Qcltb q 0) eqn:E; [assumption|].
    exists q. split; [reflexivity|].
    apply Qcnot_lt_le. intros Hlt. apply Qcltb_lt in Hlt. congruence.
Qed.

Lemma fert_clamp_outside (x v : num) :
  ((x >? Fin (qc 50 1))%num || (x <? Fin (qc 10 1))%num) = true ->
  fert_clamp x v = Fin 0%Qc.
Proof. unfold fert_clamp. intros ->. reflexivity. Qed.

Section ListFacts2.

Import Np.
Variables A B C : Type.

Lemma In_slice_nth (a b : nat) (l : list A) (x : A) :
  In x (slice a b l) -> exists i, a <= i < b /\ nth_error l i = Some x.
Proof.
  unfold slice. intros H.
  eapply In_nth_error in H as [n H].
  rewrite nth_error_skipn, nth_error_firstn in H.
  destruct (Nat.ltb_spec (a + n) b); [|discriminate].
  exists (a + n). split; [lia | assumption].
Qed.

Lemma nth_error_zip_with (op : A -> B -> C) (a : list A) (b : list B)
  (i : nat) (z : C) :
  nth_error (zip_with op a b) i = Some z ->
  exists x y, nth_error a i = Some x /\ nth_error b i = Some y /\ z = op x y.
Proof.
  revert b i; induction a as [|x a IH]; intros [|y b] [|i]; simpl;
    try discriminate.
  - intros [= <-]. eauto.
  - apply IH.
Qed.

Lemma Forall_zip_with (P : C -> Prop) (op : A -> B -> C)
  (a : list A) (b : list B) :
  (forall x y, In x a -> In y b -> P (op x y)) ->
  Forall P (zip_with op a b).
Proof.
  revert b; induction a as [|x a IH]; intros [|y b] H; simpl; constructor.
  - apply H; now left.
  - apply IH. intros; apply H; now right.
Qed.

End ListFacts2.

Section Fertility.

Import Np.
Variable polyfit : vec -> vec -> nat -> option vec.

Lemma fert_rate_clamped_facts (c : vec) :
  polyfit age_midpoint fert_data 4 = Some c ->
  c <> [] ->
  exists pv,
    polyval (linspace (qc 15 1) (qc 75 1) 60) c = Some pv /\
    fert_rate_clamped polyfit =
      Some (zip_with fert_clamp (linspace (qc 15 1) (qc 75 1) 60) pv) /\
    length (zip_with fert_clamp (linspace (qc 15 1) (qc 75 1) 60) pv) = 60.
Proof.
  intros Hc Hne. unfold fert_rate_clamped. rewrite Hc.
  destruct (polyval (linspace (qc 15 1) (qc 75 1) 60) c) as [pv|] eqn:Hpv.
  - exists pv. split; [reflexivity|]. split; [reflexivity|].
    rewrite zip_with_length, (polyval_length _ _ Hpv), linspace_length.
    reflexivity.
  - unfold polyval in Hpv. destruct (rev c) eqn:E; [|discriminate].
    apply (f_equal (@rev _)) in E. rewrite rev_involutive in E.
    contradiction.
Qed.

(** The mean of a group of zeros, halved. *)
Lemma mean_zeros_halved (l : vec) :
  l <> [] -> Forall (fun x => x = Fin 0%Qc) l ->
  (mean l / Fin (qc 2 1))%num = Fin 0%Qc.
Proof.
  intros Hne Hl. unfold mean. rewrite (sum_zeros Hl).
  destruct (@of_nat_pos (length l)) as (k & -> & Hk).
  { destruct l; [congruence | simpl; lia]. }
  rewrite fdiv_fin by (intros ->; revert Hk; apply Qcle_not_lt, Qcle_refl).
  unfold Qcdiv. rewrite Qcmult_0_l.
  rewrite fdiv_fin by (intros E; discriminate E).
  unfold Qcdiv. now rewrite Qcmult_0_l.
Qed.

Lemma mean_nonneg_halved (l : vec) :
  l <> [] -> Forall nonneg_value l ->
  nonneg_value (mean l / Fin (qc 2 1))%num.
Proof.
  intros Hne Hl. apply nonneg_value_div.
  - apply nonneg_value_div; [now apply sum_nonneg|].
    apply of_nat_pos. destruct l; [congruence | simpl; lia].
  - exists (qc 2 1). split; [reflexivity|]. now apply Qcltb_lt.
Qed.

(** C4 (amended).  For [1 <= S <= 60] and positive [J], once the degree-4
    fit has returned finite coefficients, [get_fert S J] returns an S x J
    matrix; row [s] repeats across the J columns the mean of the clamped
    per-point values of its group, halved; every entry is at least 0; and a
    cohort all of whose points lie outside the ages 10 to 50 has the entry
    exactly 0. *)
Theorem get_fert_spec (S J : nat) (c : vec) :
  1 <= S -> S <= 60 -> 1 <= J ->
  polyfit age_midpoint fert_data 4 = Some c ->
  c <> [] -> Forall is_fin c ->
  exists fr m ch,
    fert_rate_clamped polyfit = Some fr /\
    get_fert polyfit S J = Some (m, ch) /\
    length m = S /\
    m = map (fun s =>
               repeat (mean (slice (s * (60 / S)) ((s + 1) * (60 / S)) fr)
                       / Fin (qc 2 1))%num J) (seq 0 S) /\
    Forall (Forall (fun x => (Fin 0%Qc <=? x)%num = true)) m /\
    (forall s, s < S ->
       (forall i, s * (60 / S) <= i < (s + 1) * (60 / S) ->
                  outside_fertile_ages i = true) ->
       nth_error m s = Some (repeat (Fin 0%Qc) J)).
Proof.
  intros HS HS60 HJ Hc Hne Hfin.
  destruct (fert_rate_clamped_facts Hc Hne) as (pv & Hpv & Hfr & Hlen).
  set (grid := linspace (qc 15 1) (qc 75 1) 60) in *.
  set (fr := zip_with fert_clamp grid pv) in *.
  assert (Hk : 1 <= 60 / S) by (apply Nat.div_le_lower_bound; lia).
  assert (HSk : S * (60 / S) <= 60) by (apply Nat.Div0.mul_div_le).
  assert (Hm : get_fert polyfit S J =
               Some (map (fun s =>
                  repeat (mean (slice (s * (60 / S)) ((s + 1) * (60 / S)) fr)
                          / Fin (qc 2 1))%num J) (seq 0 S), zeros2 15 J)).
  { unfold get_fert. rewrite Hfr. do 2 f_equal.
    unfold tile_columns, condense. rewrite !map_map.
    apply map_ext. intros s. now rewrite map_repeat. }
  assert (Hslice : forall s, s < S ->
            slice (s * (60 / S)) ((s + 1) * (60 / S)) fr <> []).
  { intros s Hs E. apply (f_equal (@length _)) in E.
    rewrite slice_length in E by nia. simpl in E. nia. }
  assert (Hnn : Forall nonneg_value fr).
  { apply Forall_zip_with. intros x y _ Hy. apply fert_clamp_nonneg.
    pose proof (polyval_fin (linspace_fin _ _ _) Hfin Hpv) as Hall.
    rewrite Forall_forall in Hall. now apply Hall. }
  exists fr. do 2 eexists. split; [exact Hfr|]. split; [exact Hm|].
  split; [now rewrite length_map, length_seq|].
  split; [reflexivity|]. split.
  - apply Forall_forall. intros row Hrow.
    apply in_map_iff in Hrow as (s & <- & Hs). apply in_seq in Hs.
    apply Forall_forall. intros x Hx. apply repeat_spec in Hx. subst x.
    apply nonneg_value_le. apply mean_nonneg_halved; [apply Hslice; lia|].
    apply Forall_forall. intros x Hx. apply In_slice in Hx.
    rewrite Forall_forall in Hnn. now apply Hnn.
  - intros s Hs Hout.
    rewrite nth_error_map, nth_error_seq.
    destruct (Nat.ltb_spec s S); [|lia]. simpl. do 2 f_equal.
    apply mean_zeros_halved; [now apply Hslice|].
    apply Forall_forall. intros x Hx.
    apply In_slice_nth in Hx as (i & Hi & Hx).
    apply nth_error_zip_with in Hx as (a & b & Ha & _ & ->).
    apply fert_clamp_outside.
    specialize (Hout i Hi). unfold outside_fertile_ages in Hout.
    fold grid in Hout. now rewrite (nth_error_nth _ _ _ Ha) in Hout.
Qed.

End Fertility.

(** ** Immigration rates *)

Section Immigration.

Import Np.
Variable polyfit : vec -> vec -> nat -> option vec.
Variable mort_data : list mort_row.
Variable data_raw : table.

Lemma im_array_length (im : vec) :
  im_array polyfit mort_data data_raw = Some im -> length im = 74.
Proof.
  unfold im_array. destruct poly_imm as [c|]; [|discriminate].
  intros H. apply polyval_length in H. now rewrite linspace_length in H.
Qed.

Lemma get_immigration_eq (S J : nat) (im : vec) :
  1 <= S ->
  im_array polyfit mort_data data_raw = Some im ->
  get_immigration polyfit mort_data data_raw S J =
  Some (tile_columns (condense product S (S - 1) (skipn 15 im)) J,
        firstn 14 im).
Proof.
  intros HS Him. unfold get_immigration. rewrite Him.
  destruct S as [|S']; [lia|].
  unfold slice. rewrite skipn_O.
  rewrite (firstn_all2 (n := 76)); [reflexivity|].
  rewrite (im_array_length Him). lia.
Qed.

(** C9.  The child-immigration vector is the same for all [S, S' >= 2] and
    [J, J' >= 1]: the second component of [get_immigration] does not depend
    on its arguments (and the call raises for one pair exactly when it
    raises for the other). *)
Theorem children_im_independent (S J S' J' : nat) :
  2 <= S -> 1 <= J -> 2 <= S' -> 1 <= J' ->
  option_map snd (get_immigration polyfit mort_data data_raw S J) =
  option_map snd (get_immigration polyfit mort_data data_raw S' J').
Proof.
  intros HS HJ HS' HJ'.
  destruct (im_array polyfit mort_data data_raw) as [im|] eqn:Him.
  - rewrite (@get_immigration_eq S J im), (@get_immigration_eq S' J' im)
      by (assumption || lia).
    reflexivity.
  - unfold get_immigration. rewrite Him. reflexivity.
Qed.

(** C7 (amended).  For [S >= 2] and [J >= 1], [get_immigration S J] fits a
    degree-10 polynomial to the immigration factor on the grid
    [linspace(1, 75, 74)] and evaluates it on that same grid of 74 points;
    it returns the first 14 fitted values unaggregated as the
    child-immigration vector, and the fitted values from position 15 on
    re-binned by group product, [60 / S] points a group, into an
    (S-1) x J matrix whose rows repeat one value across the J columns. *)
Theorem get_immigration_spec (S J : nat) (m : matrix) (cim : vec) :
  2 <= S -> 1 <= J ->
  get_immigration polyfit mort_data data_raw S J = Some (m, cim) ->
  exists pc c im,
    perc_change polyfit mort_data data_raw = Some pc /\
    polyfit (linspace (qc 1 1) (qc 75 1) 74) pc 10 = Some c /\
    polyval (linspace (qc 1 1) (qc 75 1) 74) c = Some im /\
    length im = 74 /\
    cim = firstn 14 im /\ length cim = 14 /\
    m = tile_columns (condense product S (S - 1) (skipn 15 im)) J /\
    length m = S - 1 /\
    Forall (fun row => exists x, row = repeat x J) m.
Proof.
  intros HS HJ H.
  destruct (im_array polyfit mort_data data_raw) as [im|] eqn:Him.
  2:{ unfold get_immigration in H. rewrite Him in H. discriminate. }
  rewrite (@get_immigration_eq S J im) in H by (assumption || lia).
  assert (Em : m = tile_columns (condense product S (S - 1) (skipn 15 im)) J)
    by congruence.
  assert (Ec : cim = firstn 14 im) by congruence.
  subst m cim. clear H.
  pose proof (im_array_length Him) as Hlen.
  unfold im_array, poly_imm in Him.
  destruct (perc_change polyfit mort_data data_raw) as [pc|];
    [|discriminate].
  destruct (polyfit (linspace (qc 1 1) (qc 75 1) 74) pc 10) as [c|] eqn:Hc;
    [|discriminate].
  exists pc, c, im.
  split; [reflexivity|]. split; [exact Hc|]. split; [exact Him|].
  split; [exact Hlen|]. split; [reflexivity|].
  split; [rewrite length_firstn; lia|]. split; [reflexivity|].
  split; [now rewrite tile_columns_length, condense_length|].
  apply tile_columns_rows.
Qed.

End Immigration.

(** ** The omega array *)

Section OmegaLoop.

Import Np.
Variable mort_data : list mort_row.
Variables surv imm fert : matrix.
Variable cim : vec.
Variables S J T : nat.

Lemma last_item_nth (A : Type) (l : list A) (n : nat) :
  length l = n + 1 -> last_item l = nth_error l n.
Proof.
  intros Hlen. unfold last_item.
  destruct (rev l) as [|x r] eqn:E.
  - apply (f_equal (@length _)) in E. rewrite length_rev in E.
    simpl in E. lia.
  - apply (f_equal (@rev _)) in E. rewrite rev_involutive in E.
    simpl in E. subst l. rewrite length_app in Hlen. simpl in Hlen.
    rewrite nth_error_app2 by lia.
    replace (n - length (rev r)) with 0 by lia. reflexivity.
Qed.

Lemma const_rows_mat_mul (a b : matrix) :
  const_rows J a -> const_rows J b -> const_rows J (mat_mul a b).
Proof.
  unfold const_rows. intros Ha Hb. apply Forall_zip_with.
  intros x y Hx Hy. rewrite Forall_forall in Ha, Hb.
  destruct (Ha _ Hx) as [p ->]. destruct (Hb _ Hy) as [q ->].
  exists (p * q)%num. apply zip_with_repeat.
Qed.

Lemma const_rows_removelast (m : matrix) :
  const_rows J m -> const_rows J (removelast m).
Proof.
  unfold const_rows. rewrite !Forall_forall.
  intros H x Hx. apply H. now apply In_removelast.
Qed.

Lemma const_rows_scale_rows (m : matrix) (c : vec) :
  const_rows J m -> const_rows J (scale_rows m c).
Proof.
  unfold const_rows, scale_rows. intros Hm. apply Forall_zip_with.
  intros x y Hx _. rewrite Forall_forall in Hm.
  destruct (Hm _ Hx) as [p ->]. eexists. apply map_repeat.
Qed.

Lemma sum_axis0_const (m : matrix) :
  const_rows J m -> exists x, sum_axis0 J m = repeat x J.
Proof.
  unfold sum_axis0, zeros. generalize (Fin 0%Qc) as acc.
  induction m as [|row m IH]; intros acc Hm; simpl.
  - now exists acc.
  - inversion Hm as [|? ? [p ->] Hm']; subst.
    rewrite zip_with_repeat. now apply IH.
Qed.

Lemma births_const (omega : matrix) :
  const_rows J omega -> const_rows J fert ->
  exists x, births omega fert J = repeat x J.
Proof.
  intros Ho Hf. apply sum_axis0_const. now apply const_rows_mat_mul.
Qed.

(** What a pass of the loop reads and writes. *)
Lemma omega_step_Some (t : nat) (st st' : loop_state) :
  omega_step mort_data surv imm fert cim J t st = Some st' ->
  exists c_last cr_last imm0 old rest prev,
    last_item (children st) = Some c_last /\
    last_item (children_rate mort_data) = Some cr_last /\
    nth_error imm 0 = Some imm0 /\
    nth_error (omega_big st) t = Some (old :: rest) /\
    let row0 := zip_with fmul (map (fun x => (x * cr_last)%num) c_last) imm0 in
    let rows := mat_mul (mat_mul (removelast prev) (removelast surv)) imm in
    nth_error (set_nth t (row0 :: rest) (omega_big st)) (t - 1) = Some prev /\
    length (removelast (children_rate mort_data)) = 14 /\
    length cim = 14 /\
    st' = {| omega_big := set_nth t (row0 :: rows) (omega_big st);
             children :=
               births (row0 :: rows) fert J
               :: scale_rows (scale_rows (removelast (children st))
                                (removelast (children_rate mort_data))) cim |}.
Proof.
  unfold omega_step.
  destruct (last_item (children st)) as [c_last|]; [|discriminate].
  destruct (last_item (children_rate mort_data)) as [cr_last|];
    [|discriminate].
  destruct (nth_error imm 0) as [imm0|]; [|discriminate].
  destruct (nth_error (omega_big st) t) as [[|old rest]|];
    try discriminate.
  cbn [assign_row0].
  match goal with
  | |- context [nth_error ?l (t - 1)] =>
      destruct (nth_error l (t - 1)) as [prev|] eqn:Hprev; [|discriminate]
  end.
  cbn [assign_tail].
  destruct (Nat.eqb_spec (length (removelast (children_rate mort_data))) 14);
    [|discriminate].
  destruct (Nat.eqb_spec (length cim) 14); [|discriminate].
  cbn [andb]. intros [= <-].
  exists c_last, cr_last, imm0, old, rest, prev.
  repeat (split; [first [reflexivity | assumption]|]). reflexivity.
Qed.

Hypothesis surv_length : length surv = S.
Hypothesis imm_length : length imm = S - 1.
Hypothesis surv_const : const_rows J surv.
Hypothesis imm_const : const_rows J imm.
Hypothesis fert_const : const_rows J fert.

Lemma omega_step_inv (t : nat) (st st' : loop_state) :
  1 <= t ->
  state_inv S J T st ->
  omega_step mort_data surv imm fert cim J t st = Some st' ->
  state_inv S J T st'.
Proof.
  intros Ht (HT & Hsl & Hch & Hcc) Hstep.
  apply omega_step_Some in Hstep
    as (c_last & cr_last & imm0 & old & rest & prev & Hcl & Hcr & Himm0
        & Hcur & Hprev & Hl1 & Hl2 & ->).
  rewrite nth_error_set_nth_neq in Hprev by lia.
  rewrite Forall_forall in Hsl.
  destruct (Hsl _ (nth_error_In _ _ Hprev)) as [Hplen Hpc].
  destruct (Hsl _ (nth_error_In _ _ Hcur)) as [Hclen Hccur].
  assert (Hrow0 : exists x,
             zip_with fmul (map (fun x => (x * cr_last)%num) c_last) imm0
             = repeat x J).
  { pose proof imm_const as Hic. unfold const_rows in Hcc, Hic.
    rewrite Forall_forall in Hcc, Hic.
    destruct (Hic _ (nth_error_In _ _ Himm0)) as [q ->].
    assert (Hin : In c_last (children st)).
    { unfold last_item in Hcl. destruct (rev (children st)) eqn:E;
        [discriminate|]. injection Hcl as ->.
      apply in_rev. rewrite E. now left. }
    destruct (Hcc _ Hin) as [p ->].
    rewrite map_repeat, zip_with_repeat. eauto. }
  assert (Hrows : const_rows J
            (mat_mul (mat_mul (removelast prev) (removelast surv)) imm)).
  { repeat apply const_rows_mat_mul; try assumption;
      now apply const_rows_removelast. }
  assert (Hnew : const_rows J
     (zip_with fmul (map (fun x => (x * cr_last)%num) c_last) imm0
      :: mat_mul (mat_mul (removelast prev) (removelast surv)) imm)).
  { constructor; assumption. }
  unfold state_inv. cbn [omega_big children].
  split; [now rewrite set_nth_length|]. split.
  - apply Forall_forall. intros m Hm.
    apply In_nth_error in Hm as [i Hi].
    destruct (Nat.eq_dec i t) as [E|Hne].
    + subst i.
      assert (Hlt : t < length (omega_big st)).
      { apply nth_error_Some. intros E. rewrite E in Hcur. discriminate. }
      rewrite (nth_error_set_nth_eq _ _ Hlt) in Hi.
      injection Hi as <-. split; [|assumption].
      cbn [length] in Hclen |- *. unfold mat_mul.
      rewrite !zip_with_length, !length_removelast'.
      pose proof surv_length as Hs1. pose proof imm_length as Hs2.
      unfold matrix, vec in Hs1, Hs2, Hplen, Hclen |- *. lia.
    + rewrite nth_error_set_nth_neq in Hi by assumption.
      apply Hsl. eapply nth_error_In; eassumption.
  - split.
    + cbn [length]. unfold scale_rows.
      rewrite !zip_with_length, length_removelast'.
      unfold matrix, vec in Hch, Hl1, Hl2 |- *. lia.
    + constructor.
      * now apply births_const.
      * repeat apply const_rows_scale_rows.
        now apply const_rows_removelast.
Qed.

Lemma omega_step_frame (t i : nat) (st st' : loop_state) :
  i <> t ->
  omega_step mort_data surv imm fert cim J t st = Some st' ->
  nth_error (omega_big st') i = nth_error (omega_big st) i.
Proof.
  intros Hi Hstep.
  apply omega_step_Some in Hstep
    as (c_last & cr_last & imm0 & old & rest & prev & _ & _ & _
        & _ & _ & _ & _ & ->).
  cbn [omega_big]. now apply nth_error_set_nth_neq.
Qed.

Lemma omega_loop_app (a b : list nat) (st : loop_state) :
  omega_loop mort_data surv imm fert cim J (a ++ b) st =
  (st' <- omega_loop mort_data surv imm fert cim J a st ;;
   omega_loop mort_data surv imm fert cim J b st').
Proof.
  revert st; induction a as [|t a IH]; intros st; simpl; [reflexivity|].
  destruct omega_step; [apply IH | reflexivity].
Qed.

Lemma omega_loop_inv (ts : list nat) (st st' : loop_state) :
  Forall (fun t => 1 <= t) ts ->
  state_inv S J T st ->
  omega_loop mort_data surv imm fert cim J ts st = Some st' ->
  state_inv S J T st'.
Proof.
  revert st; induction ts as [|t ts IH]; intros st Hts Hinv; simpl.
  - now intros [= <-].
  - inversion Hts as [|? ? Ht Hts'].
    destruct omega_step as [st1|] eqn:Hstep; [|discriminate].
    apply IH; [assumption|]. eapply omega_step_inv; eassumption.
Qed.

Lemma omega_loop_frame (ts : list nat) (i : nat) (st st' : loop_state) :
  ~ In i ts ->
  omega_loop mort_data surv imm fert cim J ts st = Some st' ->
  nth_error (omega_big st') i = nth_error (omega_big st) i.
Proof.
  revert st; induction ts as [|t ts IH]; intros st Hi; simpl.
  - now intros [= <-].
  - destruct omega_step as [st1|] eqn:Hstep; [|discriminate].
    intros Hloop. rewrite (IH st1) by (simpl in Hi; tauto || assumption).
    eapply omega_step_frame; [|eassumption]. simpl in Hi. intuition.
Qed.

End OmegaLoop.

Section Omega.

Import Np.
Variable polyfit : vec -> vec -> nat -> option vec.
Variable mort_data : list mort_row.
Variable data_raw : table.

Lemma new_omega_length (data : table) (S J : nat) :
  length (new_omega data S J) = S.
Proof.
  unfold new_omega, tile_columns, new_omega_vec.
  now rewrite !length_map, length_seq.
Qed.

Lemma new_omega_const (data : table) (S J : nat) :
  const_rows J (new_omega data S J).
Proof.
  unfold new_omega, tile_columns. rewrite map_map.
  apply Forall_forall. intros row Hrow.
  apply in_map_iff in Hrow as (x & <- & _). eexists. apply map_repeat.
Qed.

Lemma get_fert_const (S J : nat) (fert ch : matrix) :
  get_fert polyfit S J = Some (fert, ch) -> const_rows J fert.
Proof.
  unfold get_fert. destruct fert_rate_clamped; [|discriminate].
  intros E.
  assert (E' : fert = map (map (fun x => (x / Fin (qc 2 1))%num))
                        (tile_columns (condense mean S S v) J))
    by congruence.
  subst fert. unfold tile_columns. rewrite map_map.
  apply Forall_forall. intros row Hrow.
  apply in_map_iff in Hrow as (x & <- & _). eexists. apply map_repeat.
Qed.

Lemma get_immigration_shape (S J : nat) (imm : matrix) (cim : vec) :
  get_immigration polyfit mort_data data_raw S J = Some (imm, cim) ->
  length imm = S - 1 /\ const_rows J imm.
Proof.
  unfold get_immigration. destruct im_array; [|discriminate].
  destruct S as [|S']; [discriminate|]. intros E.
  assert (E' : imm = tile_columns
                       (condense product (Datatypes.S S') (Datatypes.S S' - 1)
                          (slice 15 76 v)) J) by congruence.
  subst imm. split.
  - now rewrite tile_columns_length, condense_length.
  - apply tile_columns_rows.
Qed.

Lemma init_state_inv (data : table) (fert : matrix) (cim : vec)
  (S J T : nat) :
  const_rows J fert ->
  state_inv S J T (init_state mort_data data fert cim S J T).
Proof.
  intros Hf. unfold state_inv, init_state. cbn [omega_big children].
  split; [apply repeat_length|]. split.
  - apply Forall_forall. intros m Hm. apply repeat_spec in Hm. subst m.
    split; [apply new_omega_length | apply new_omega_const].
  - unfold children_init. split; [now rewrite length_map, length_seq|].
    apply Forall_forall. intros row Hrow.
    apply in_map_iff in Hrow as (ind & <- & _).
    destruct (@births_const fert J (new_omega (normalize data) S J))
      as [x ->]; [apply new_omega_const | assumption |].
    eexists. apply map_repeat.
Qed.

(** The parts of a successful call of [get_omega]. *)
Lemma get_omega_Some (data : table) (S J T : nat) (omega : tensor)
  (data' : table) :
  get_omega polyfit mort_data data_raw data S J T = Some (omega, data') ->
  exists surv imm cim fert ch st,
    get_survival polyfit mort_data S J = Some surv /\
    get_immigration polyfit mort_data data_raw S J = Some (imm, cim) /\
    get_fert polyfit S J = Some (fert, ch) /\
    1 <= T /\
    omega_loop mort_data surv imm fert cim J (seq 1 (T - 1))
      (init_state mort_data data fert cim S J T) = Some st /\
    omega = omega_big st /\
    data' = normalize data.
Proof.
  unfold get_omega.
  destruct get_survival as [surv|]; [|discriminate].
  destruct get_immigration as [[imm cim]|]; [|discriminate].
  destruct get_fert as [[fert ch]|]; [|discriminate].
  destruct T as [|T']; [discriminate|].
  cbn [repeat nth_error].
  fold (repeat (new_omega (normalize data) S J) (Datatypes.S T')).
  fold (init_state mort_data data fert cim S J (Datatypes.S T')).
  destruct omega_loop as [st|] eqn:Hloop; [|discriminate].
  intros E. exists surv, imm, cim, fert, ch, st.
  repeat (split; [first [reflexivity | assumption | lia]|]).
  split; congruence.
Qed.

Lemma seq_1_all_positive (n : nat) : Forall (fun t => 1 <= t) (seq 1 n).
Proof. apply Forall_forall. intros t Ht. apply in_seq in Ht. lia. Qed.

(** C10.  In the array [get_omega S J T] returns, every slice has the same
    entry in all the ability columns: entries [t, s, j] and [t, s, j'] exist
    and are equal for all [t < T], [s < S] and [j, j' < J]. *)
Theorem omega_columns_equal (data : table) (S J T : nat) (omega : tensor)
  (data' : table) :
  1 <= S -> 1 <= J -> 1 <= T ->
  get_omega polyfit mort_data data_raw data S J T = Some (omega, data') ->
  forall t s j j', t < T -> s < S -> j < J -> j' < J ->
    exists m row x,
      nth_error omega t = Some m /\
      nth_error m s = Some row /\
      nth_error row j = Some x /\
      nth_error row j' = Some x.
Proof.
  intros HS HJ HT H t s j j' Ht Hs Hj Hj'.
  apply get_omega_Some in H
    as (surv & imm & cim & fert & ch & st & Hsurv & Himm & Hfert & _
        & Hloop & -> & _).
  destruct (get_immigration_shape _ _ Himm) as [Hil Hic].
  assert (Hinv : state_inv S J T st).
  { eapply omega_loop_inv; [ | | | | | apply seq_1_all_positive | | exact Hloop].
    - eapply get_survival_length; eassumption.
    - exact Hil.
    - eapply get_survival_rows; eassumption.
    - exact Hic.
    - eapply get_fert_const; eassumption.
    - apply init_state_inv. eapply get_fert_const; eassumption. }
  destruct Hinv as (HlenT & Hsl & _ & _).
  destruct (nth_error (omega_big st) t) as [m|] eqn:Hm.
  2:{ apply nth_error_None in Hm. lia. }
  rewrite Forall_forall in Hsl.
  destruct (Hsl _ (nth_error_In _ _ Hm)) as [Hlen Hconst].
  destruct (nth_error m s) as [row|] eqn:Hrow.
  2:{ apply nth_error_None in Hrow. lia. }
  unfold const_rows in Hconst. rewrite Forall_forall in Hconst.
  destruct (Hconst _ (nth_error_In _ _ Hrow)) as [x ->].
  exists m, (repeat x J), x.
  split; [reflexivity|]. split; [assumption|].
  split; now apply nth_error_repeat.
Qed.

Lemma omega_state_before_eq (data : table) (S J T t : nat)
  (surv imm fert ch : matrix) (cim : vec) :
  1 <= T ->
  get_survival polyfit mort_data S J = Some surv ->
  get_immigration polyfit mort_data data_raw S J = Some (imm, cim) ->
  get_fert polyfit S J = Some (fert, ch) ->
  omega_state_before polyfit mort_data data_raw data S J T t =
  omega_loop mort_data surv imm fert cim J (seq 1 (t - 1))
    (init_state mort_data data fert cim S J T).
Proof.
  intros HT Hs Hi Hf. unfold omega_state_before.
  rewrite Hs, Hi, Hf. destruct T as [|T']; [lia|]. reflexivity.
Qed.

(** C1.  For [S >= 2], [J >= 1], [T >= 2] and [1 <= t <= T-1], slice [t] of
    the array [get_omega S J T] returns has [S] rows of [J] entries; its row
    0 is row 14 of the children at the start of pass [t] times
    [children_rate[14]] times row 0 of the immigration matrix, and its rows
    1 to S-1 are rows 0 to S-2 of slice [t-1] times rows 0 to S-2 of the
    survival matrix times the S-1 rows of the immigration matrix,
    elementwise. *)
Theorem omega_recurrence (data : table) (S J T t : nat) (omega : tensor)
  (data' : table) :
  2 <= S -> 1 <= J -> 2 <= T -> 1 <= t <= T - 1 ->
  get_omega polyfit mort_data data_raw data S J T = Some (omega, data') ->
  exists surv imm cim st c14 cr14 imm0 prev cur,
    get_survival polyfit mort_data S J = Some surv /\
    get_immigration polyfit mort_data data_raw S J = Some (imm, cim) /\
    omega_state_before polyfit mort_data data_raw data S J T t = Some st /\
    nth_error (children st) 14 = Some c14 /\
    nth_error (children_rate mort_data) 14 = Some cr14 /\
    nth_error imm 0 = Some imm0 /\
    nth_error omega (t - 1) = Some prev /\
    nth_error omega t = Some cur /\
    length cur = S /\
    Forall (fun row => length row = J) cur /\
    cur = zip_with fmul (map (fun x => (x * cr14)%num) c14) imm0
          :: mat_mul (mat_mul (removelast prev) (removelast surv)) imm.
Proof.
  intros HS HJ HT Ht H.
  apply get_omega_Some in H
    as (surv & imm & cim & fert & ch & stF & Hsurv & Himm & Hfert & _
        & Hloop & -> & _).
  destruct (get_immigration_shape _ _ Himm) as [Hil Hic].
  assert (Hsl : length surv = S)
    by (eapply get_survival_length; [|exact Hsurv]; lia).
  assert (Hsc : const_rows J surv)
    by (eapply get_survival_rows; exact Hsurv).
  assert (Hfc : const_rows J fert)
    by (eapply get_fert_const; exact Hfert).
  replace (T - 1) with ((t - 1) + (1 + (T - t - 1))) in Hloop by lia.
  rewrite seq_app, omega_loop_app in Hloop.
  destruct (omega_loop mort_data surv imm fert cim J (seq 1 (t - 1))
              (init_state mort_data data fert cim S J T))
    as [st0|] eqn:Hpre; [|discriminate].
  replace (1 + (t - 1)) with t in Hloop by lia.
  cbn [seq Nat.add omega_loop] in Hloop.
  destruct (omega_step mort_data surv imm fert cim J t st0)
    as [st1|] eqn:Hstep; [|discriminate].
  assert (Hinv0 : state_inv S J T st0).
  { eapply omega_loop_inv; [ | | | | | apply seq_1_all_positive | | exact Hpre];
      try eassumption.
    now apply init_state_inv. }
  assert (Hinv1 : state_inv S J T st1).
  { eapply omega_step_inv; [ | | | | | | | exact Hstep]; try eassumption.
    lia. }
  assert (Hfin_t : nth_error (omega_big stF) t = nth_error (omega_big st1) t).
  { eapply omega_loop_frame; [|exact Hloop]. rewrite in_seq. lia. }
  assert (Hfin_p : nth_error (omega_big stF) (t - 1)
                   = nth_error (omega_big st0) (t - 1)).
  { erewrite omega_loop_frame; [| |exact Hloop]; [|rewrite in_seq; lia].
    eapply omega_step_frame; [|exact Hstep]. lia. }
  apply omega_step_Some in Hstep
    as (c_last & cr_last & imm0 & old & rest & prev & Hcl & Hcr & Himm0
        & Hcur & Hprev & Hl1 & Hl2 & Est1).
  rewrite nth_error_set_nth_neq in Hprev by lia.
  assert (Hlt : t < length (omega_big st0)).
  { apply nth_error_Some. intros E. rewrite E in Hcur. discriminate. }
  assert (Hcur1 : nth_error (omega_big st1) t =
     Some (zip_with fmul (map (fun x => (x * cr_last)%num) c_last) imm0
           :: mat_mul (mat_mul (removelast prev) (removelast surv)) imm)).
  { rewrite Est1. cbn [omega_big]. now apply nth_error_set_nth_eq. }
  destruct Hinv0 as (_ & _ & Hch0 & _).
  destruct Hinv1 as (_ & Hsl1 & _ & _).
  rewrite Forall_forall in Hsl1.
  destruct (Hsl1 _ (nth_error_In _ _ Hcur1)) as [Hlen1 Hconst1].
  assert (Hcr15 : length (children_rate mort_data) = 14 + 1).
  { rewrite length_removelast' in Hl1.
    destruct (children_rate mort_data); [discriminate|].
    simpl in Hl1 |- *. lia. }
  rewrite (@last_item_nth _ (children st0) 14) in Hcl
    by (rewrite Hch0; reflexivity).
  rewrite (@last_item_nth _ (children_rate mort_data) 14 Hcr15) in Hcr.
  eexists surv, imm, cim, st0, c_last, cr_last, imm0, prev, _.
  split; [assumption|]. split; [assumption|].
  split; [erewrite omega_state_before_eq; eauto; lia|].
  split; [assumption|]. split; [assumption|]. split; [assumption|].
  split; [rewrite Hfin_p; exact Hprev|].
  split; [rewrite Hfin_t; exact Hcur1|].
  split; [assumption|]. split; [|reflexivity].
  unfold const_rows in Hconst1. eapply Forall_impl; [|exact Hconst1].
  intros row [x ->]. apply repeat_length.
Qed.

End Omega.

(** ** Exact sums *)

Section Sums.

Import Np.
Local Open Scope Qc_scope.

Lemma fold_Qcplus_acc (l : list Qc) (a : Qc) :
  fold_left Qcplus l a = a + qsum l.
Proof.
  unfold qsum. revert a. induction l as [|x l IH]; intros a; simpl.
  - ring.
  - rewrite IH, (IH (0 + x)). ring.
Qed.

Lemma qsum_cons (x : Qc) (l : list Qc) : qsum (x :: l) = x + qsum l.
Proof. unfold qsum at 1. simpl. rewrite fold_Qcplus_acc. ring. Qed.

Lemma qsum_app (a b : list Qc) : qsum (a ++ b) = qsum a + qsum b.
Proof.
  induction a as [|x a IH]; simpl.
  - unfold qsum at 2. simpl. ring.
  - rewrite !qsum_cons, IH. ring.
Qed.

Lemma qsum_map_plus (A : Type) (f g : A -> Qc) (l : list A) :
  qsum (map (fun x => f x + g x) l) = qsum (map f l) + qsum (map g l).
Proof.
  induction l as [|x l IH]; simpl.
  - unfold qsum. simpl. ring.
  - rewrite !qsum_cons, IH. ring.
Qed.

Lemma qsum_map_div (A : Type) (f : A -> Qc) (s : Qc) (l : list A) :
  qsum (map (fun x => f x / s) l) = qsum (map f l) / s.
Proof.
  unfold Qcdiv. induction l as [|x l IH]; simpl.
  - unfold qsum. simpl. ring.
  - rewrite !qsum_cons, IH. ring.
Qed.

Lemma sum_fin_acc (l : vec) (a : Qc) :
  Forall is_fin l ->
  fold_left fadd l (Fin a) = Fin (a + qsum (map num_val l)).
Proof.
  revert a. induction l as [|x l IH]; intros a Hl; simpl.
  - unfold qsum. simpl. f_equal. ring.
  - inversion Hl as [|? ? Hx Hl']; subst.
    destruct x as [q| | |]; try contradiction.
    simpl. rewrite IH by assumption. rewrite qsum_cons. f_equal. ring.
Qed.

Lemma sum_fin (l : vec) :
  Forall is_fin l -> sum l = Fin (qsum (map num_val l)).
Proof.
  intros Hl. unfold sum. rewrite sum_fin_acc by assumption.
  f_equal. ring.
Qed.

Lemma Qc_of_nat_succ (n : nat) : Qc_of_nat (S n) = Qc_of_nat n + 1.
Proof.
  unfold Qc_of_nat. apply Qc_is_canon.
  unfold Qcplus, Q2Qc. cbn [this]. rewrite !Qred_correct.
  rewrite Nat2Z.inj_succ. unfold Z.succ. rewrite inject_Z_plus.
  reflexivity.
Qed.

Lemma Qc_of_nat_nonzero (n : nat) : (1 <= n)%nat -> Qc_of_nat n <> 0.
Proof.
  intros Hn E. apply (f_equal this) in E. unfold Qc_of_nat, Q2Qc in E.
  cbn [this] in E.
  assert (H : (Qred (inject_Z (Z.of_nat n)) == 0)%Q) by (rewrite E; reflexivity).
  rewrite Qred_correct in H. unfold Qeq, inject_Z in H. cbn in H. lia.
Qed.

Lemma qsum_repeat (x : Qc) (n : nat) : qsum (repeat x n) = Qc_of_nat n * x.
Proof.
  induction n as [|n IH]; simpl.
  - change (Qc_of_nat 0) with 0. change (qsum []) with 0. ring.
  - rewrite qsum_cons, IH, Qc_of_nat_succ. ring.
Qed.

(** Spreading every value evenly over [n] columns keeps the total. *)
Lemma qsum_spread (bs : list Qc) (n : nat) :
  (1 <= n)%nat ->
  qsum (concat (map (fun b => repeat (b / Qc_of_nat n) n) bs)) = qsum bs.
Proof.
  intros Hn. pose proof (Qc_of_nat_nonzero Hn) as Hne.
  induction bs as [|b bs IH]; simpl; [reflexivity|].
  rewrite qsum_app, qsum_repeat, IH, qsum_cons. f_equal.
  now field.
Qed.

End Sums.

(** ** Normalization of the population table *)

Section Normalize.

Import Np.


(** A finite column with a nonzero total, divided by its total. *)
Lemma column_normalized (col : vec) :
  Forall is_fin col -> sum col <> Fin 0%Qc ->
  Forall is_fin (map (fun x => (x / sum col)%num) col) /\
  sum (map (fun x => (x / sum col)%num) col) = Fin 1%Qc.
Proof.
  intros Hfin Hsum. rewrite (sum_fin Hfin) in *.
  set (s := qsum (map num_val col)) in *.
  assert (Hs : s <> 0%Qc) by congruence.
  assert (E : map (fun x => (x / Fin s)%num) col
              = map (fun x => Fin (num_val x / s)%Qc) col).
  { apply map_ext_in. intros x Hx. rewrite Forall_forall in Hfin.
    specialize (Hfin _ Hx). destruct x; try contradiction.
    now apply fdiv_fin. }
  rewrite E. split.
  - apply Forall_forall. intros y Hy.
    apply in_map_iff in Hy as (x & <- & _). exact I.
  - rewrite sum_fin.
    + rewrite map_map. cbn [num_val]. f_equal.
      rewrite (qsum_map_div num_val s col). fold s. now field.
    + apply Forall_forall. intros y Hy.
      apply in_map_iff in Hy as (x & <- & _). exact I.
Qed.

Lemma normalize_Age (data : table) :
  map Age (normalize data) = map Age data.
Proof. unfold normalize. rewrite map_map. reflexivity. Qed.

Lemma normalize_columns (data : table) :
  map y2010 (normalize data)
    = map (fun x => (x / sum (map y2010 data))%num) (map y2010 data) /\
  map y2011 (normalize data)
    = map (fun x => (x / sum (map y2011 data))%num) (map y2011 data) /\
  map y2012 (normalize data)
    = map (fun x => (x / sum (map y2012 data))%num) (map y2012 data) /\
  map y2013 (normalize data)
    = map (fun x => (x / sum (map y2013 data))%num) (map y2013 data).
Proof. unfold normalize. rewrite !map_map. repeat split. Qed.

Lemma finite_columns (data : table) :
  Forall finite_row data <->
  Forall is_fin (map y2010 data) /\ Forall is_fin (map y2011 data) /\
  Forall is_fin (map y2012 data) /\ Forall is_fin (map y2013 data).
Proof.
  unfold finite_row. rewrite !Forall_map.
  split.
  - intros H. repeat split; eapply Forall_impl; try exact H;
      cbv beta; tauto.
  - intros (H0 & H1 & H2 & H3). rewrite Forall_forall in *.
    intros r Hr. auto.
Qed.

Lemma normalize_sums (data : table) :
  well_formed data ->
  Forall finite_row (normalize data) /\
  sum (map y2010 (normalize data)) = Fin 1%Qc /\
  sum (map y2011 (normalize data)) = Fin 1%Qc /\
  sum (map y2012 (normalize data)) = Fin 1%Qc /\
  sum (map y2013 (normalize data)) = Fin 1%Qc.
Proof.
  intros (Hfin & H0 & H1 & H2 & H3).
  apply finite_columns in Hfin as (F0 & F1 & F2 & F3).
  destruct (normalize_columns data) as (E0 & E1 & E2 & E3).
  destruct (column_normalized F0 H0) as [G0 S0].
  destruct (column_normalized F1 H1) as [G1 S1].
  destruct (column_normalized F2 H2) as [G2 S2].
  destruct (column_normalized F3 H3) as [G3 S3].
  rewrite finite_columns, E0, E1, E2, E3. tauto.
Qed.


End Normalize.

(** ** The age groups partition the working range *)

Section AgeGroups.

Import Np.
Local Open Scope Qc_scope.

Lemma nth_linspace (a b : Qc) (n i : nat) :
  (i < n)%nat ->
  nth i (linspace a b n) NaN
  = Fin (a + Qc_of_nat i * ((b - a) / Qc_of_nat (n - 1))).
Proof.
  intros Hi. apply nth_error_nth. unfold linspace. cbv zeta.
  rewrite nth_error_map, nth_error_seq.
  destruct (Nat.ltb_spec i n); [reflexivity | lia].
Qed.

(** Over increasing breakpoints, the groups below breakpoint [n] hold a
    value at or above the first breakpoint exactly once when it lies below
    breakpoint [n], and not at all otherwise. *)
Lemma group_indicator_sum (beta : nat -> Qc) (a x : Qc) (n : nat) :
  (forall i, beta i <= beta (S i)) ->
  beta 0%nat <= a ->
  qsum (map (fun i => if Qcleb (beta i) a && Qcltb a (beta (i + 1)%nat)
                      then x else 0) (seq 0 n))
  = if Qcltb a (beta n) then x else 0.
Proof.
  intros Hmono H0. induction n as [|n IH].
  - simpl. change (qsum []) with 0.
    destruct (Qcltb a (beta 0%nat)) eqn:E; [|reflexivity].
    apply Qcltb_lt in E. exfalso. revert E. now apply Qcle_not_lt.
  - rewrite seq_S, map_app, qsum_app, IH. cbn [map Nat.add].
    rewrite qsum_cons. change (qsum []) with 0.
    replace (n + 1)%nat with (S n) by lia.
    destruct (Qcltb a (beta n)) eqn:E1.
    + apply Qcltb_lt in E1.
      assert (E2 : Qcleb (beta n) a = false).
      { destruct (Qcleb (beta n) a) eqn:E; [|reflexivity].
        apply Qcleb_le in E. exfalso. revert E1. now apply Qcle_not_lt. }
      assert (E3 : Qcltb a (beta (S n)) = true).
      { apply Qcltb_lt. eapply Qclt_le_trans; [exact E1 | apply Hmono]. }
      rewrite E2, E3. cbn [andb]. ring.
    + assert (E2 : Qcleb (beta n) a = true).
      { apply Qcleb_le. apply Qcnot_lt_le. intros H.
        apply Qcltb_lt in H. congruence. }
      rewrite E2. cbn [andb].
      destruct (Qcltb a (beta (S n))); ring.
Qed.

(** Summing group by group is summing the whole table when every row falls
    in one group. *)
Lemma partition_sum (A : Type) (f : A -> Qc) (g : nat -> A -> bool)
  (inds : list nat) (d : list A) :
  (forall r, In r d ->
     qsum (map (fun ind => if g ind r then f r else 0) inds) = f r) ->
  qsum (map (fun ind => qsum (map f (filter (g ind) d))) inds)
  = qsum (map f d).
Proof.
  induction d as [|r d IH]; intros H.
  - clear H. simpl. change (qsum []) with 0.
    induction inds as [|i inds IHi]; simpl; [reflexivity|].
    rewrite qsum_cons, IHi. ring.
  - cbn [map]. rewrite qsum_cons, <- IH by (intros; apply H; now right).
    rewrite <- (H r (or_introl eq_refl)) at 1.
    rewrite <- qsum_map_plus. f_equal. apply map_ext. intros ind.
    cbn [filter]. destruct (g ind r); cbn [map].
    + now rewrite qsum_cons.
    + ring.
Qed.

Lemma Qc_of_Z_le (a b : Z) : (a <= b)%Z -> Qc_of_Z a <= Qc_of_Z b.
Proof.
  intros H. unfold Qcle, Qc_of_Z, Q2Qc. cbn [this].
  rewrite !Qred_correct. now rewrite <- Zle_Qle.
Qed.

Lemma Qc_of_Z_lt (a b : Z) : (a < b)%Z -> Qc_of_Z a < Qc_of_Z b.
Proof.
  intros H. unfold Qclt, Qc_of_Z, Q2Qc. cbn [this].
  rewrite !Qred_correct. now rewrite <- Zlt_Qlt.
Qed.

Lemma Qc_of_nat_nonneg (n : nat) : 0 <= Qc_of_nat n.
Proof. apply (Qc_of_Z_le (a := 0)). lia. Qed.

(** The breakpoints [np.linspace(16, 76, S+1)]. *)
Lemma breakpoints (S : nat) :
  (1 <= S)%nat ->
  let beta := fun i => qc 16 1 + Qc_of_nat i * ((qc 76 1 - qc 16 1) / Qc_of_nat S) in
  (forall i, beta i <= beta (Datatypes.S i)) /\
  beta 0%nat = qc 16 1 /\ beta S = qc 76 1.
Proof.
  intros HS beta. pose proof (Qc_of_nat_nonzero HS) as Hne.
  assert (Hstep : 0 <= (qc 76 1 - qc 16 1) / Qc_of_nat S).
  { apply Qcdiv_nonneg.
    - apply Qcleb_le. reflexivity.
    - destruct (Qcle_lt_or_eq _ _ (Qc_of_nat_nonneg S)) as [H|H];
        [assumption | congruence]. }
  split; [|split].
  - intros i. unfold beta. rewrite Qc_of_nat_succ.
    set (step := (qc 76 1 - qc 16 1) / Qc_of_nat S) in *.
    replace (qc 16 1 + (Qc_of_nat i + 1) * step)
      with ((qc 16 1 + Qc_of_nat i * step) + step) by ring.
    rewrite <- (Qcplus_0_r (qc 16 1 + Qc_of_nat i * step)) at 1.
    apply Qcplus_le_compat; [apply Qcle_refl | assumption].
  - unfold beta. change (Qc_of_nat 0) with 0. ring.
  - unfold beta. field. assumption.
Qed.

End AgeGroups.

(** ** The initial slice and repeated calls *)

Section OmegaTotals.

Import Np.
Variable polyfit : vec -> vec -> nat -> option vec.
Variable mort_data : list mort_row.
Variable data_raw : table.

Lemma sum_map_Fin (l : list Qc) : sum (map Fin l) = Fin (qsum l).
Proof.
  rewrite sum_fin.
  - rewrite map_map. cbn [num_val]. now rewrite map_id.
  - apply Forall_forall. intros x Hx.
    apply in_map_iff in Hx as (q & <- & _). exact I.
Qed.

Lemma new_omega_total (d : table) (S J : nat) :
  1 <= S -> 1 <= J ->
  Forall is_fin (map y2010 d) ->
  Forall (fun r => (16 <= Age r < 76)%Z) d ->
  sum_all (new_omega d S J) = Fin (qsum (map (fun r => num_val (y2010 r)) d)).
Proof.
  intros HS HJ Hfin Hage.
  set (beta := fun i =>
         (qc 16 1 + Qc_of_nat i * ((qc 76 1 - qc 16 1) / Qc_of_nat S))%Qc).
  set (g := fun ind r =>
         Qcleb (beta ind) (Qc_of_Z (Age r))
         && Qcltb (Qc_of_Z (Age r)) (beta (ind + 1))).
  set (f := fun r => num_val (y2010 r)).
  set (bs := map (fun ind => qsum (map f (filter (g ind) d))) (seq 0 S)).
  assert (Hvec : new_omega_vec d S = map Fin bs).
  { unfold new_omega_vec, bs. cbv zeta. rewrite map_map.
    apply map_ext_in. intros ind Hind. apply in_seq in Hind.
    rewrite !nth_linspace by lia.
    replace (S + 1 - 1) with S by lia.
    change (filter _ d) with (filter (g ind) d).
    rewrite sum_fin.
    - now rewrite map_map.
    - rewrite Forall_map in Hfin |- *. rewrite Forall_forall in Hfin |- *.
      intros r Hr. apply filter_In in Hr as [Hr _]. now apply Hfin. }
  assert (Hm : new_omega d S J
               = map (fun b => repeat (Fin (b / Qc_of_nat J)%Qc) J) bs).
  { unfold new_omega, tile_columns. rewrite Hvec, !map_map.
    apply map_ext. intros b. rewrite map_repeat. f_equal.
    apply fdiv_fin. now apply Qc_of_nat_nonzero. }
  unfold sum_all. rewrite Hm.
  assert (Hc : concat (map (fun b => repeat (Fin (b / Qc_of_nat J)%Qc) J) bs)
               = map Fin (concat (map (fun b => repeat (b / Qc_of_nat J)%Qc J) bs))).
  { rewrite concat_map, map_map. f_equal. apply map_ext. intros b.
    now rewrite map_repeat. }
  rewrite Hc, sum_map_Fin, qsum_spread by assumption. f_equal.
  unfold bs. apply partition_sum. intros r Hr.
  destruct (breakpoints HS) as (Hmono & Hb0 & HbS).
  change (forall i, (beta i <= beta (Datatypes.S i))%Qc) in Hmono.
  change (beta 0 = qc 16 1) in Hb0. change (beta S = qc 76 1) in HbS.
  rewrite Forall_forall in Hage. specialize (Hage _ Hr).
  unfold g.
  rewrite (@group_indicator_sum beta (Qc_of_Z (Age r)) (f r) S Hmono).
  - rewrite HbS.
    assert (E : Qcltb (Qc_of_Z (Age r)) (qc 76 1) = true).
    { apply Qcltb_lt. apply (Qc_of_Z_lt (b := 76)). lia. }
    now rewrite E.
  - rewrite Hb0. apply (Qc_of_Z_le (a := 16)). lia.
Qed.

(** The initial slice of the returned array. *)
Lemma get_omega_slice0 (data : table) (S J T : nat) (omega : tensor)
  (data' : table) :
  get_omega polyfit mort_data data_raw data S J T = Some (omega, data') ->
  nth_error omega 0 = Some (new_omega (normalize data) S J) /\
  data' = normalize data.
Proof.
  intros H.
  apply get_omega_Some in H
    as (surv & imm & cim & fert & ch & st & _ & _ & _ & HT & Hloop & -> & ->).
  split; [|reflexivity].
  erewrite omega_loop_frame; [| |exact Hloop].
  - unfold init_state. cbn [omega_big].
    destruct T as [|T']; [lia | reflexivity].
  - rewrite in_seq. lia.
Qed.

(** C6 (amended).  For positive [S], [J], [T] and a population table whose
    working rows carry the ages 16 to 75, the entries of slice 0 of the
    array [get_omega S J T] returns sum to 1 exactly, in exact arithmetic:
    the counts are divided by the total of the working range itself, so the
    population outside the range plays no part. *)
Theorem omega_slice0_sums_to_one (data : table) (S J T : nat)
  (omega : tensor) (data' : table) :
  1 <= S -> 1 <= J -> 1 <= T ->
  well_formed data ->
  Forall (fun r => (16 <= Age r < 76)%Z) data ->
  get_omega polyfit mort_data data_raw data S J T = Some (omega, data') ->
  exists m, nth_error omega 0 = Some m /\ sum_all m = Fin 1%Qc.
Proof.
  intros HS HJ HT Hwf Hage H.
  apply get_omega_slice0 in H as [H0 _].
  eexists. split; [exact H0|].
  destruct (normalize_sums Hwf) as (Hfin & S0 & _).
  apply finite_columns in Hfin as (F0 & _).
  rewrite new_omega_total; try assumption.
  - rewrite (sum_fin F0), map_map in S0. exact S0.
  - rewrite <- Forall_map with (f := Age) (P := fun a => (16 <= a < 76)%Z).
    rewrite normalize_Age. now rewrite Forall_map.
Qed.

(** C5 (amended).  After the normalization inside [get_omega], run on the
    module's table [data = data[16:76]], each of the four year columns of
    [data] holds finite fractions that sum to 1 over the rows of the working
    range, the only rows the table has; [data_raw] is not touched. *)
Theorem normalized_over_working_range (S J T : nat) (omega : tensor)
  (data' : table) :
  well_formed (data_init data_raw) ->
  get_omega polyfit mort_data data_raw (data_init data_raw) S J T
    = Some (omega, data') ->
  map Age data' = map Age (slice 16 76 data_raw) /\
  Forall finite_row data' /\
  sum (map y2010 data') = Fin 1%Qc /\
  sum (map y2011 data') = Fin 1%Qc /\
  sum (map y2012 data') = Fin 1%Qc /\
  sum (map y2013 data') = Fin 1%Qc.
Proof.
  intros Hwf H. apply get_omega_slice0 in H as [_ ->].
  split; [apply normalize_Age | now apply normalize_sums].
Qed.


End OmegaTotals.

(** ** The sample inputs *)

Section SampleFacts.

Import Np.

Lemma feqb_eq (x y : num) : feqb x y = true -> x = y.
Proof.
  destruct x as [a| | |], y as [b| | |]; simpl; try discriminate; auto.
  destruct (a ?= b)%Qc eqn:E; try discriminate.
  intros _. f_equal. now apply Qceq_alt.
Qed.

Lemma feqb_false_neq (x y : num) : feqb x y = false -> is_fin x -> x <> y.
Proof.
  intros H Hfin E. subst y.
  destruct x as [a| | |]; simpl in *; try contradiction.
  assert (Ea : (a ?= a)%Qc = Eq) by now apply Qceq_alt.
  rewrite Ea in H. discriminate.
Qed.

Lemma is_some_not_None (A : Type) (o : option A) :
  match o with Some _ => true | None => false end = true -> o <> None.
Proof. intros H E. rewrite E in H. discriminate. Qed.

Lemma sample_run_Some : Sample.run <> None.
Proof. apply is_some_not_None. vm_compute. reflexivity. Qed.

Lemma sample_well_formed : well_formed (data_init Sample.pop).
Proof.
  split.
  - apply Forall_forall. intros r Hr. apply In_slice in Hr.
    apply in_map_iff in Hr as (a & <- & _). repeat split.
  - repeat split; vm_compute; discriminate.
Qed.

Lemma sample_ages :
  Forall (fun r => (16 <= Age r < 76)%Z) (data_init Sample.pop).
Proof.
  apply Forall_forall. intros r Hr.
  apply In_slice_nth in Hr as (i & Hi & Hr).
  unfold Sample.pop in Hr. rewrite nth_error_map, nth_error_seq in Hr.
  destruct (Nat.ltb_spec i 80); [|discriminate].
  injection Hr as <-. cbn [Age]. lia.
Qed.

End SampleFacts.

(** The sample run returns: name the array and the table it leaves. *)
Ltac sample_run omega data E :=
  destruct Sample.run as [[omega data]|] eqn:E;
  [| exfalso; exact (sample_run_Some E)].

(** ** The theorems at the sample inputs *)

Section Instances.

Import Np.

(** The recurrence in the sample run, at the last period. *)
Lemma omega_recurrence_witness :
  exists omega data' prev cur,
    Sample.run = Some (omega, data') /\
    nth_error omega 1 = Some prev /\
    nth_error omega 2 = Some cur /\
    length cur = 3 /\
    skipn 1 cur
    = match get_survival Sample.line_fit Sample.mort 3 2,
            get_immigration Sample.line_fit Sample.mort Sample.pop 3 2 with
      | Some surv, Some (imm, _) =>
          mat_mul (mat_mul (removelast prev) (removelast surv)) imm
      | _, _ => []
      end.
Proof.
  sample_run omega data' E.
  destruct (@omega_recurrence Sample.line_fit Sample.mort Sample.pop
              (data_init Sample.pop) 3 2 3 2 omega data')
    as (surv & imm & cim & st & c14 & cr14 & imm0 & prev & cur & Hs & Hi
        & _ & _ & _ & _ & Hprev & Hcur & Hlen & _ & Heq);
    [lia | lia | lia | lia | exact E |].
  exists omega, data', prev, cur.
  rewrite Hs, Hi. repeat (split; [first [reflexivity | assumption]|]).
  rewrite Heq. reflexivity.
Defined.


(** Seven cohorts: 60 = 7 * 8 + 4, four points are left out. *)
Lemma get_survival_nondivisor_witness :
  exists m,
    get_survival Sample.line_fit Sample.mort 7 2 = Some m /\
    length m = 7 /\
    Forall (fun row => length row = 2) m.
Proof.
  destruct (survival_rate_fit Sample.line_fit Sample.mort) as [v|] eqn:E;
    [|exfalso; revert E; apply is_some_not_None; vm_compute; reflexivity].
  destruct (@get_survival_nondivisor Sample.line_fit Sample.mort 7 2 v)
    as (m & Hm & Hlen & Hrows & _); [lia | lia | discriminate | exact E |].
  exists m. repeat split; first [reflexivity | assumption].
Defined.


(** The fertility matrix of a line fit for 4 cohorts, 2 ability types; the
    points of the last cohort are all past age 50. *)
Lemma get_fert_spec_witness :
  exists m ch,
    get_fert Sample.line_fit 4 2 = Some (m, ch) /\
    length m = 4 /\
    Forall (Forall (fun x => (Fin 0%Qc <=? x)%num = true)) m /\
    nth_error m 3 = Some (repeat (Fin 0%Qc) 2).
Proof.
  destruct (Sample.line_fit age_midpoint fert_data 4) as [c|] eqn:E;
    [|exfalso; revert E; apply is_some_not_None; vm_compute; reflexivity].
  destruct (@get_fert_spec Sample.line_fit 4 2 c)
    as (fr & m & ch & _ & Hm & Hlen & _ & Hpos & Hzero);
    [lia | lia | lia | exact E | | |].
  - vm_compute in E. injection E as <-. discriminate.
  - vm_compute in E. injection E as <-. repeat constructor.
  - exists m, ch. repeat split; try assumption.
    apply Hzero; [lia|]. intros i Hi.
    assert (Hall : forallb outside_fertile_ages (seq 45 15) = true)
      by (vm_compute; reflexivity).
    apply (proj1 (forallb_forall _ _) Hall). apply in_seq.
    change (60 / 4) with 15 in Hi. lia.
Defined.

(** The working range of the sample table after the sample run. *)
Lemma normalized_over_working_range_witness :
  exists omega data',
    Sample.run = Some (omega, data') /\
    sum (map y2010 data') = Fin 1%Qc /\
    sum (map y2013 data') = Fin 1%Qc.
Proof.
  sample_run omega data' E.
  destruct (@normalized_over_working_range Sample.line_fit Sample.mort
              Sample.pop 3 2 3 omega data' sample_well_formed E)
    as (_ & _ & H0 & _ & _ & H3).
  exists omega, data'. repeat split; first [reflexivity | assumption].
Defined.

(** The initial slice of the sample run. *)
Lemma omega_slice0_sums_to_one_witness :
  exists omega data' m,
    Sample.run = Some (omega, data') /\
    nth_error omega 0 = Some m /\ sum_all m = Fin 1%Qc.
Proof.
  sample_run omega data' E.
  destruct (@omega_slice0_sums_to_one Sample.line_fit Sample.mort Sample.pop
              (data_init Sample.pop) 3 2 3 omega data')
    as (m & Hm & Hsum);
    [lia | lia | lia | exact sample_well_formed | exact sample_ages
     | exact E |].
  exists omega, data', m. repeat split; first [reflexivity | assumption].
Defined.

(** The immigration model on the sample tables for 4 cohorts. *)
Lemma get_immigration_spec_witness :
  exists m cim,
    get_immigration Sample.line_fit Sample.mort Sample.pop 4 2 = Some (m, cim) /\
    length cim = 14 /\ length m = 3.
Proof.
  destruct (get_immigration Sample.line_fit Sample.mort Sample.pop 4 2)
    as [[m cim]|] eqn:E;
    [|exfalso; revert E; apply is_some_not_None; vm_compute; reflexivity].
  destruct (@get_immigration_spec Sample.line_fit Sample.mort Sample.pop
              4 2 m cim)
    as (pc & c & im & _ & _ & _ & _ & _ & Hc & _ & Hm & _);
    [lia | lia | exact E |].
  exists m, cim. repeat split; first [reflexivity | assumption].
Defined.

(** Two cohorts of one ability type against sixty of three. *)
Lemma children_im_independent_witness :
  option_map snd (get_immigration Sample.line_fit Sample.mort Sample.pop 2 1)
  = option_map snd (get_immigration Sample.line_fit Sample.mort Sample.pop 60 3).
Proof.
  apply (@children_im_independent Sample.line_fit Sample.mort Sample.pop
           2 1 60 3); lia.
Defined.

(** The two ability columns of the sample run. *)
Lemma omega_columns_equal_witness :
  exists omega data' m row x,
    Sample.run = Some (omega, data') /\
    nth_error omega 2 = Some m /\
    nth_error m 1 = Some row /\
    nth_error row 0 = Some x /\
    nth_error row 1 = Some x.
Proof.
  sample_run omega data' E.
  destruct (@omega_columns_equal Sample.line_fit Sample.mort Sample.pop
              (data_init Sample.pop) 3 2 3 omega data'
              ltac:(lia) ltac:(lia) ltac:(lia) E 2 1 0 1)
    as (m & row & x & H1 & H2 & H3 & H4); try lia.
  exists omega, data', m, row, x. repeat split; first [reflexivity | assumption].
Defined.

End Instances.

(** ** Where the code departs from the specification's wording *)

Section Departures.

Import Np.


(** C4, as stated, fails for [S > 60]: the groups are empty, the mean of an
    empty group is NaN, and every entry of [get_fert 61 1] is NaN, which is
    neither at least 0 nor 0. *)
Lemma get_fert_61_is_nan :
  exists m ch,
    get_fert Sample.line_fit 61 1 = Some (m, ch) /\
    m = repeat [NaN] 61 /\
    ~ Forall (Forall (fun x => (Fin 0%Qc <=? x)%num = true)) m.
Proof.
  do 2 eexists. split; [vm_compute; reflexivity|].
  split; [reflexivity|].
  intros H. inversion H as [|? ? Hrow _]. inversion Hrow as [|? ? Hx _].
  discriminate Hx.
Qed.

(** C5, as stated, fails.  The sample table has 80 ages; after the call the
    normalized table has the 60 rows of the working range only, and the
    2010 counts over the divisor the call uses sum to 4/3 over the full raw
    range, not to 1; [data_raw] itself still holds the counts. *)
Lemma full_range_not_normalized :
  exists omega data',
    Sample.run = Some (omega, data') /\
    length data' = 60 /\
    length Sample.pop = 80 /\
    sum (spec_full_range_fractions Sample.pop) <> Fin 1%Qc /\
    sum (map y2010 Sample.pop) <> Fin 1%Qc.
Proof.
  sample_run omega data' E.
  exists omega, data'. split; [reflexivity|].
  apply get_omega_slice0 in E as [_ ->].
  split; [vm_compute; reflexivity|].
  split; [reflexivity|].
  split; apply feqb_false_neq; vm_compute; first [reflexivity | exact I].
Qed.

(** C6, as stated, fails in its "only if": the sample table has population
    outside the rows 16 to 75, and slice 0 of the sample run still sums to
    1 exactly. *)
Lemma slice0_total_one_with_mass_outside :
  exists omega data' m,
    Sample.run = Some (omega, data') /\
    nth_error omega 0 = Some m /\
    sum_all m = Fin 1%Qc /\
    mass_outside Sample.pop <> Fin 0%Qc.
Proof.
  sample_run omega data' E.
  apply get_omega_slice0 in E as [H0 ->].
  do 3 eexists. split; [reflexivity|]. split; [exact H0|].
  split.
  - apply feqb_eq. vm_compute. reflexivity.
  - apply feqb_false_neq; vm_compute; first [reflexivity | exact I].
Qed.

(** C7, as stated, fails.  The polynomial is evaluated at the 74 points of
    [linspace(1, 75, 74)], not at the 75 integer ages 1 to 75: on the
    sample tables the evaluated array has 74 entries, and no entry of the
    child-immigration vector after the first is the fitted value at any
    integer age from 0 to 75. *)
Lemma child_immigration_not_at_integer_ages :
  exists m cim im at_integer_ages,
    get_immigration Sample.line_fit Sample.mort Sample.pop 2 1
      = Some (m, cim) /\
    im_array Sample.line_fit Sample.mort Sample.pop = Some im /\
    length im = 74 /\
    spec_im_array Sample.line_fit Sample.mort Sample.pop 0 76
      = Some at_integer_ages /\
    forallb (fun x => negb (existsb (feqb x) at_integer_ages)) (tl cim)
      = true.
Proof.
  do 4 eexists.
  split; [vm_compute; reflexivity|].
  split; [vm_compute; reflexivity|].
  split; [vm_compute; reflexivity|].
  split; vm_compute; reflexivity.
Qed.

End Departures.

(** * Further properties of the module *)

(** ** What the calls require of their arguments and of the tables *)

Section Requirements.

Import Np.
Variable polyfit : vec -> vec -> nat -> option vec.
Variable mort_data : list mort_row.
Variable data_raw : table.

Lemma get_survival_no_cohort (J : nat) :
  get_survival polyfit mort_data 0 J = None.
Proof. unfold get_survival. destruct survival_rate_fit; reflexivity. Qed.

Lemma get_omega_no_cohort (data : table) (J T : nat) :
  get_omega polyfit mort_data data_raw data 0 J T = None.
Proof. unfold get_omega. now rewrite get_survival_no_cohort. Qed.

(** X1.  With no cohort at all, [get_survival] and [get_immigration] raise
    (an index into an empty array, a negative dimension), and so does
    [get_omega], whatever the tables and the other arguments. *)
Theorem zero_cohorts_raise (data : table) (J T : nat) :
  get_survival polyfit mort_data 0 J = None /\
  get_immigration polyfit mort_data data_raw 0 J = None /\
  get_omega polyfit mort_data data_raw data 0 J T = None.
Proof.
  split; [apply get_survival_no_cohort|]. split.
  - unfold get_immigration. destruct im_array; reflexivity.
  - apply get_omega_no_cohort.
Qed.

(** X2.  With a single cohort the immigration matrix has no row, and the
    first pass of the time loop indexes its row 0: [get_omega 1 J T] raises
    for every [T >= 2]. *)
Theorem one_cohort_raises (data : table) (J T : nat) :
  2 <= T ->
  get_omega polyfit mort_data data_raw data 1 J T = None.
Proof.
  intros HT.
  destruct (get_omega polyfit mort_data data_raw data 1 J T)
    as [[omega data']|] eqn:E; [exfalso|reflexivity].
  apply get_omega_Some in E
    as (surv & imm & cim & fert & ch & st & _ & Himm & _ & _ & Hloop & _).
  pose proof Himm as Hsh. apply get_immigration_shape in Hsh as [Hlen _].
  replace (T - 1) with (Datatypes.S (T - 2)) in Hloop by lia.
  cbn [seq omega_loop] in Hloop.
  destruct omega_step as [st1|] eqn:Hstep; [|discriminate].
  apply omega_step_Some in Hstep
    as (c_last & cr_last & imm0 & old & rest & prev & _ & _ & Himm0 & _).
  destruct imm; [discriminate Himm0 | discriminate Hlen].
Qed.

Lemma broadcast_Some (op : num -> num -> num) (a b c : vec) :
  broadcast op a b = Some c ->
  (length a = length b /\ length c = length a) \/
  (length a = 1 /\ length c = length b) \/
  (length b = 1 /\ length c = length a).
Proof.
  unfold broadcast.
  destruct (Nat.eqb_spec (length a) (length b)) as [E|E].
  - intros [= <-]. left. split; [assumption|].
    rewrite zip_with_length. lia.
  - destruct a as [|x [|x' a]].
    + destruct b as [|y [|y' b]]; try discriminate.
      intros [= <-]. right. right. auto.
    + intros [= <-]. right. left. split; [reflexivity|].
      simpl. now rewrite ?length_map.
    + destruct b as [|y [|y' b]]; try discriminate.
      intros [= <-]. right. right. split; [reflexivity|].
      simpl. now rewrite ?length_map.
Qed.

Lemma slice_length_min (A : Type) (a b : nat) (l : list A) :
  length (slice a b l) = Nat.min b (length l) - a.
Proof. unfold slice. now rewrite length_skipn, length_firstn. Qed.

Lemma get_survival_60_1_flat (m : matrix) :
  get_survival polyfit mort_data 60 1 = Some m -> length (concat m) = 60.
Proof.
  intros H.
  assert (Hlen : length m = 60)
    by (eapply get_survival_length; [|exact H]; lia).
  pose proof H as Hrows. apply get_survival_rows in Hrows.
  clear H. revert Hlen. generalize 60.
  induction Hrows as [|row m [x ->] _ IH]; intros n Hn; simpl in *.
  - assumption.
  - destruct n as [|n]; [discriminate|]. now rewrite (IH n) by lia.
Qed.

Lemma perc_change_requires (pc : vec) :
  perc_change polyfit mort_data data_raw = Some pc ->
  length (children_rate mort_data) = 15 /\ 77 <= length data_raw /\
  length pc = 74.
Proof.
  unfold perc_change.
  destruct (get_survival polyfit mort_data 60 1) as [m|] eqn:Hm;
    [|discriminate].
  pose proof (get_survival_60_1_flat Hm) as Hflat.
  destruct (children_rate mort_data) as [|c0 cr] eqn:Hcr; [discriminate|].
  destruct broadcast as [p10|] eqn:H1; [|discriminate].
  destruct (broadcast fsub _ p10) as [d|] eqn:H2; [|discriminate].
  destruct (broadcast fdiv d p10) as [q|] eqn:H3; [|discriminate].
  intros [= <-].
  apply broadcast_Some in H1, H2, H3.
  rewrite slice_length_min, length_map in H1, H2.
  rewrite length_app, Hflat in H1. cbn [length] in H1.
  rewrite length_removelast', length_map.
  cbn [length]. lia.
Qed.

(** X3.  [get_immigration], and [get_omega] which calls it, return only if
    the mortality table has exactly 15 rows of age below 15 and the
    population table has at least 77 rows; with any other tables the array
    shapes do not match and the call raises. *)
Theorem tables_required (data : table) (S J T : nat) :
  get_immigration polyfit mort_data data_raw S J <> None \/
  get_omega polyfit mort_data data_raw data S J T <> None ->
  length (children_rate mort_data) = 15 /\ 77 <= length data_raw.
Proof.
  intros H.
  assert (Him : get_immigration polyfit mort_data data_raw S J <> None).
  { destruct H as [H|H]; [exact H|]. intros E. apply H.
    unfold get_omega. rewrite E. now destruct get_survival. }
  unfold get_immigration, im_array, poly_imm in Him.
  destruct (perc_change polyfit mort_data data_raw) as [pc|] eqn:Hpc;
    [|congruence].
  apply perc_change_requires in Hpc. tauto.
Qed.

(** X4.  The array [get_omega S J T] returns has [T] slices of [S] rows of
    [J] entries, and the table the call leaves behind has the rows of the
    table it found. *)
Theorem get_omega_shape (data : table) (S J T : nat) (omega : tensor)
  (data' : table) :
  get_omega polyfit mort_data data_raw data S J T = Some (omega, data') ->
  length omega = T /\
  Forall (fun m => length m = S /\ Forall (fun row => length row = J) m)
         omega /\
  map Age data' = map Age data.
Proof.
  intros H.
  destruct S as [|S'].
  { rewrite get_omega_no_cohort in H. discriminate. }
  apply get_omega_Some in H
    as (surv & imm & cim & fert & ch & st & Hsurv & Himm & Hfert & _
        & Hloop & -> & ->).
  pose proof Himm as Hsh. apply get_immigration_shape in Hsh as [Hil Hic].
  assert (Hinv : state_inv (Datatypes.S S') J T st).
  { eapply omega_loop_inv; [ | | | | | apply seq_1_all_positive | | exact Hloop].
    - eapply get_survival_length; [|eassumption]. lia.
    - exact Hil.
    - eapply get_survival_rows; eassumption.
    - exact Hic.
    - eapply get_fert_const; eassumption.
    - apply init_state_inv. eapply get_fert_const; eassumption. }
  destruct Hinv as (HlenT & Hsl & _ & _).
  split; [exact HlenT|]. split; [|apply normalize_Age].
  eapply Forall_impl; [|exact Hsl].
  intros m [Hm Hc]. split; [exact Hm|].
  eapply Forall_impl; [|exact Hc]. intros row [x ->]. apply repeat_length.
Qed.

End Requirements.

(** ** The projection is a first-order recurrence *)

Section Recurrence.

Import Np.
Variable polyfit : vec -> vec -> nat -> option vec.
Variable mort_data : list mort_row.
Variable data_raw : table.

Lemma nth_error_firstn_lt (A : Type) (n i : nat) (l : list A) :
  i < n -> nth_error (firstn n l) i = nth_error l i.
Proof.
  intros H. rewrite nth_error_firstn.
  destruct (Nat.ltb_spec i n); [reflexivity | lia].
Qed.

Lemma set_nth_firstn (A : Type) (n t : nat) (x : A) (l : list A) :
  firstn n (set_nth t x l) =
  if Nat.ltb t n then set_nth t x (firstn n l) else firstn n l.
Proof.
  revert t l; induction n as [|n IH]; intros t l.
  - destruct t, l; reflexivity.
  - destruct l as [|y l].
    { destruct t as [|t]; [reflexivity|]. simpl.
      now destruct (Nat.ltb (S t) (S n)). }
    destruct t as [|t]; [reflexivity|].
    cbn [set_nth firstn]. rewrite IH.
    change (Nat.ltb (S t) (S n)) with (Nat.ltb t n).
    now destruct (Nat.ltb t n).
Qed.

Lemma firstn_repeat' (A : Type) (x : A) (n m : nat) :
  n <= m -> firstn n (repeat x m) = repeat x n.
Proof.
  revert m; induction n as [|n IH]; intros [|m] H; simpl; try lia; auto.
  f_equal. apply IH. lia.
Qed.

(** The tensor of a state cut to its first [n] slices. *)
Lemma omega_step_cut (surv imm fert : matrix) (cim : vec) (J n t : nat)
  (st st1 : loop_state) :
  1 <= t < n ->
  omega_step mort_data surv imm fert cim J t st = Some st1 ->
  omega_step mort_data surv imm fert cim J t
    {| omega_big := firstn n (omega_big st); children := children st |}
  = Some {| omega_big := firstn n (omega_big st1);
            children := children st1 |}.
Proof.
  intros Ht Hstep.
  apply omega_step_Some in Hstep
    as (c_last & cr_last & imm0 & old & rest & prev & Hcl & Hcr & Himm0
        & Hcur & Hprev & Hl1 & Hl2 & ->).
  rewrite nth_error_set_nth_neq in Hprev by lia.
  unfold omega_step. cbn [omega_big children].
  rewrite Hcl, Hcr, Himm0.
  rewrite (nth_error_firstn_lt _ (proj2 Ht)), Hcur. cbn [assign_row0].
  rewrite nth_error_set_nth_neq by lia.
  assert (Hp : nth_error (firstn n (omega_big st)) (t - 1) = Some prev)
    by (rewrite nth_error_firstn_lt by lia; exact Hprev).
  unfold matrix, vec, tensor in *. rewrite Hp. cbn [assign_tail].
  rewrite Hl1, Hl2. cbn [Nat.eqb andb].
  rewrite set_nth_firstn.
  destruct (Nat.ltb_spec t n); [reflexivity | lia].
Qed.

Lemma omega_loop_cut (surv imm fert : matrix) (cim : vec) (J n : nat)
  (ts : list nat) (st st1 : loop_state) :
  Forall (fun t => 1 <= t < n) ts ->
  omega_loop mort_data surv imm fert cim J ts st = Some st1 ->
  omega_loop mort_data surv imm fert cim J ts
    {| omega_big := firstn n (omega_big st); children := children st |}
  = Some {| omega_big := firstn n (omega_big st1);
            children := children st1 |}.
Proof.
  revert st; induction ts as [|t ts IH]; intros st Hts; simpl.
  - now intros [= <-].
  - inversion Hts as [|? ? Ht Hts'].
    destruct omega_step as [st2|] eqn:Hstep; [|discriminate].
    intros Hloop.
    rewrite (@omega_step_cut surv imm fert cim J n t st st2 Ht Hstep).
    now apply IH.
Qed.

Lemma omega_loop_later (surv imm fert : matrix) (cim : vec) (J n : nat)
  (ts : list nat) (st st1 : loop_state) :
  Forall (fun t => n <= t) ts ->
  omega_loop mort_data surv imm fert cim J ts st = Some st1 ->
  firstn n (omega_big st1) = firstn n (omega_big st).
Proof.
  revert st; induction ts as [|t ts IH]; intros st Hts; simpl.
  - now intros [= <-].
  - inversion Hts as [|? ? Ht Hts'].
    destruct omega_step as [st2|] eqn:Hstep; [|discriminate].
    intros Hloop. rewrite (IH st2 Hts' Hloop).
    apply omega_step_Some in Hstep
      as (c_last & cr_last & imm0 & old & rest & prev & _ & _ & _
          & _ & _ & _ & _ & ->).
    cbn [omega_big]. rewrite set_nth_firstn.
    destruct (Nat.ltb_spec t n); [lia | reflexivity].
Qed.

(** X5.  Asking for fewer periods gives the first periods of the longer
    run: when [get_omega S J T] returns, [get_omega S J T'] returns its
    first [T'] slices for every [1 <= T' <= T].  No slice depends on a
    later one, nor on [T]. *)
Theorem get_omega_prefix (data : table) (S J T T' : nat) (omega : tensor)
  (data' : table) :
  1 <= T' <= T ->
  get_omega polyfit mort_data data_raw data S J T = Some (omega, data') ->
  get_omega polyfit mort_data data_raw data S J T'
  = Some (firstn T' omega, data').
Proof.
  intros HT H.
  apply get_omega_Some in H
    as (surv & imm & cim & fert & ch & st & Hsurv & Himm & Hfert & _
        & Hloop & -> & ->).
  replace (T - 1) with ((T' - 1) + (T - T')) in Hloop by lia.
  rewrite seq_app, omega_loop_app in Hloop.
  destruct (omega_loop mort_data surv imm fert cim J (seq 1 (T' - 1))
              (init_state mort_data data fert cim S J T))
    as [st0|] eqn:Hpre; [|discriminate].
  assert (Hrange : Forall (fun t => 1 <= t < T') (seq 1 (T' - 1))).
  { apply Forall_forall. intros t Ht. apply in_seq in Ht. lia. }
  pose proof (@omega_loop_cut surv imm fert cim J T' _ _ _ Hrange Hpre)
    as Hcut.
  assert (Hlater : firstn T' (omega_big st) = firstn T' (omega_big st0)).
  { eapply omega_loop_later; [|exact Hloop].
    apply Forall_forall. intros t Ht. apply in_seq in Ht. lia. }
  unfold init_state in Hcut. cbn [omega_big children] in Hcut.
  rewrite firstn_repeat' in Hcut by lia.
  unfold get_omega. rewrite Hsurv, Himm, Hfert.
  destruct T' as [|T'']; [lia|].
  cbn [repeat nth_error].
  change (new_omega (normalize data) S J
          :: repeat (new_omega (normalize data) S J) T'')
    with (repeat (new_omega (normalize data) S J) (Datatypes.S T'')).
  rewrite Hcut. cbn [omega_big]. now rewrite Hlater.
Qed.

(** X6.  The children between two passes of the time loop: after pass [t],
    row 0 holds the births of the slice just written,
    [(omega[t] * fert_rate).sum(0)], and rows 1 to 14 hold rows 0 to 13 of
    the children before the pass, each scaled by its survival rate
    [children_rate[i]] and its immigration factor [children_im[i]]. *)
Theorem children_recurrence (data : table) (S J T t : nat) (omega : tensor)
  (data' : table) :
  1 <= t <= T - 1 ->
  get_omega polyfit mort_data data_raw data S J T = Some (omega, data') ->
  exists imm cim fert ch st st' cur,
    get_immigration polyfit mort_data data_raw S J = Some (imm, cim) /\
    get_fert polyfit S J = Some (fert, ch) /\
    omega_state_before polyfit mort_data data_raw data S J T t = Some st /\
    omega_state_before polyfit mort_data data_raw data S J T (t + 1)
      = Some st' /\
    nth_error omega t = Some cur /\
    length (children st') = 15 /\
    children st'
    = births cur fert J
      :: scale_rows (scale_rows (removelast (children st))
                       (removelast (children_rate mort_data))) cim.
Proof.
  intros Ht H.
  destruct S as [|S'].
  { rewrite get_omega_no_cohort in H. discriminate. }
  apply get_omega_Some in H
    as (surv & imm & cim & fert & ch & stF & Hsurv & Himm & Hfert & HT
        & Hloop & -> & _).
  pose proof Himm as Hsh. apply get_immigration_shape in Hsh as [Hil Hic].
  assert (Hsl : length surv = Datatypes.S S')
    by (eapply get_survival_length; [|exact Hsurv]; lia).
  assert (Hsc : const_rows J surv)
    by (eapply get_survival_rows; exact Hsurv).
  assert (Hfc : const_rows J fert)
    by (eapply get_fert_const; exact Hfert).
  replace (T - 1) with ((t - 1) + (1 + (T - t - 1))) in Hloop by lia.
  rewrite seq_app, omega_loop_app in Hloop.
  destruct (omega_loop mort_data surv imm fert cim J (seq 1 (t - 1))
              (init_state mort_data data fert cim (Datatypes.S S') J T))
    as [st0|] eqn:Hpre; [|discriminate].
  replace (1 + (t - 1)) with t in Hloop by lia.
  cbn [seq Nat.add omega_loop] in Hloop.
  destruct (omega_step mort_data surv imm fert cim J t st0)
    as [st1|] eqn:Hstep; [|discriminate].
  assert (Hinv1 : state_inv (Datatypes.S S') J T st1).
  { eapply omega_step_inv; [ | | | | | | | exact Hstep]; try eassumption;
      [lia|].
    eapply omega_loop_inv;
      [ | | | | | apply seq_1_all_positive | | exact Hpre]; try eassumption.
    now apply init_state_inv. }
  assert (Hfin_t : nth_error (omega_big stF) t = nth_error (omega_big st1) t).
  { eapply omega_loop_frame; [|exact Hloop]. rewrite in_seq. lia. }
  assert (Hnext : omega_state_before polyfit mort_data data_raw data
                    (Datatypes.S S') J T (t + 1) = Some st1).
  { erewrite omega_state_before_eq; eauto.
    replace (t + 1 - 1) with ((t - 1) + 1) by lia.
    rewrite seq_app, omega_loop_app, Hpre.
    replace (1 + (t - 1)) with t by lia.
    cbn [seq omega_loop]. now rewrite Hstep. }
  pose proof Hstep as Hst.
  apply omega_step_Some in Hst
    as (c_last & cr_last & imm0 & old & rest & prev & _ & _ & _
        & Hcur & _ & _ & _ & Est1).
  assert (Hlt : t < length (omega_big st0)).
  { apply nth_error_Some. intros E. rewrite E in Hcur. discriminate. }
  exists imm, cim, fert, ch, st0, st1. eexists.
  split; [assumption|]. split; [assumption|].
  split; [erewrite omega_state_before_eq; eauto|].
  split; [exact Hnext|].
  split; [rewrite Hfin_t, Est1; cbn [omega_big];
          now apply nth_error_set_nth_eq|].
  split; [apply Hinv1|].
  rewrite Est1. reflexivity.
Qed.

End Recurrence.

(** ** The re-binning at its edges *)

Section Rebinning.

Import Np.
Variable polyfit : vec -> vec -> nat -> option vec.
Variable mort_data : list mort_row.
Variable data_raw : table.

Lemma map_const_seq (A : Type) (c : A) (start n : nat) :
  map (fun _ => c) (seq start n) = repeat c n.
Proof. revert start; induction n; intros; simpl; congruence. Qed.

Lemma removelast_repeat (A : Type) (x : A) (n : nat) :
  removelast (repeat x (S n)) = repeat x n.
Proof.
  change (repeat x (S n)) with (x :: repeat x n).
  rewrite repeat_cons. apply removelast_last.
Qed.

Lemma condense_no_width (S groups : nat) (v : vec) :
  60 / S = 0 -> condense product S groups v = repeat (Fin 1%Qc) groups.
Proof.
  intros H. unfold condense. rewrite H, <- (map_const_seq _ 0).
  apply map_ext. intros s. now rewrite !Nat.mul_0_r.
Qed.

(** X7.  Past 60 cohorts the group width [60 / S] is 0 and every group is
    empty: [get_survival S J] is all 1.0 but its last row of 0, and the
    immigration matrix of [get_immigration S J] is all 1.0, whatever the
    tables and the fits say. *)
Theorem more_cohorts_than_points (S J : nat) :
  61 <= S ->
  (forall m, get_survival polyfit mort_data S J = Some m ->
             m = repeat (repeat (Fin 1%Qc) J) (S - 1)
                 ++ [repeat (Fin 0%Qc) J]) /\
  (forall imm cim,
      get_immigration polyfit mort_data data_raw S J = Some (imm, cim) ->
      imm = repeat (repeat (Fin 1%Qc) J) (S - 1)).
Proof.
  intros HS.
  assert (Hk : 60 / S = 0) by (apply Nat.div_small; lia).
  split.
  - intros m Hm.
    destruct (survival_rate_fit polyfit mort_data) as [v|] eqn:Hv.
    2:{ unfold get_survival in Hm. rewrite Hv in Hm. discriminate. }
    rewrite (@get_survival_eq polyfit mort_data S J v) in Hm
      by (assumption || lia).
    injection Hm as <-.
    rewrite condense_no_width by assumption.
    destruct S as [|S']; [lia|].
    rewrite removelast_repeat. unfold tile_columns.
    rewrite map_app, map_repeat. simpl. now rewrite Nat.sub_0_r.
  - intros imm cim Hi.
    destruct (im_array polyfit mort_data data_raw) as [im|] eqn:Him.
    2:{ unfold get_immigration in Hi. rewrite Him in Hi. discriminate. }
    rewrite (@get_immigration_eq polyfit mort_data data_raw S J im) in Hi
      by (assumption || lia).
    assert (E : imm = tile_columns
                        (condense product S (S - 1) (skipn 15 im)) J)
      by congruence.
    rewrite E, condense_no_width by assumption.
    unfold tile_columns. now rewrite map_repeat.
Qed.

Lemma clamped_single (x : num) :
  let y := (Fin 1%Qc * clamp_above_one x)%num in
  (y <=? Fin 1%Qc)%num = true \/ y = NaN.
Proof.
  unfold clamp_above_one, fgt. destruct x as [q| | |]; simpl.
  - destruct (Qcltb 1 q) eqn:E; left; simpl.
    + reflexivity.
    + rewrite Qcmult_1_l. apply Qcleb_le. apply Qcnot_lt_le.
      intros H. apply Qcltb_lt in H. congruence.
  - left. reflexivity.
  - left. reflexivity.
  - right. reflexivity.
Qed.

(** X8.  From 31 cohorts on a group holds at most one point, so no product
    of two negative values can arise: every entry of [get_survival S J] is
    at most 1.0 or is NaN, whatever the fitted values are. *)
Theorem single_point_groups_bounded (S J : nat) (m : matrix) :
  31 <= S ->
  get_survival polyfit mort_data S J = Some m ->
  Forall (Forall (fun x => (x <=? Fin 1%Qc)%num = true \/ x = NaN)) m.
Proof.
  intros HS Hm.
  assert (Hk : 60 / S < 2) by (apply Nat.Div0.div_lt_upper_bound; lia).
  destruct (survival_rate_fit polyfit mort_data) as [v|] eqn:Hv.
  2:{ unfold get_survival in Hm. rewrite Hv in Hm. discriminate. }
  rewrite (@get_survival_eq polyfit mort_data S J v) in Hm
    by (assumption || lia).
  injection Hm as <-.
  apply Forall_forall. intros row Hrow.
  apply in_map_iff in Hrow as (y & <- & Hy).
  apply Forall_forall. intros x Hx. apply repeat_spec in Hx. subst x.
  apply in_app_or in Hy as [Hy|[<-|[]]]; [|left; reflexivity].
  apply In_removelast in Hy. unfold condense in Hy.
  apply in_map_iff in Hy as (s & <- & _).
  remember (slice (s * (60 / S)) ((s + 1) * (60 / S))
              (map clamp_above_one v)) as g eqn:Hg.
  assert (Hlen : length g <= 1).
  { subst g. rewrite slice_length_min. nia. }
  destruct g as [|c [|c' g]]; [left; reflexivity | | simpl in Hlen; lia].
  assert (Hc : In c (map clamp_above_one v)).
  { apply (@In_slice _ (s * (60 / S)) ((s + 1) * (60 / S))).
    rewrite <- Hg. now left. }
  apply in_map_iff in Hc as (x & <- & _).
  apply clamped_single.
Qed.

Lemma fert_grid_cutoff :
  forallb outside_fertile_ages (seq 35 25) = true /\
  forallb (fun i => negb (outside_fertile_ages i)) (seq 0 35) = true.
Proof. split; vm_compute; reflexivity. Qed.

(** X9.  The fertile ages as the code has them: of the 60 evaluation points
    the first 35 (ages 15 to 49.6) pass the age test and the last 25 fail
    it, the test [age < 10] never firing; so for [1 <= S <= 60] every
    cohort whose first point has index 35 or more has fertility exactly
    0. *)
Theorem fertility_cutoff (S J s : nat) (m ch : matrix) :
  1 <= S -> S <= 60 ->
  get_fert polyfit S J = Some (m, ch) ->
  s < S -> 35 <= s * (60 / S) ->
  nth_error m s = Some (repeat (Fin 0%Qc) J) /\
  (forall i, i < 35 -> outside_fertile_ages i = false) /\
  (forall i, 35 <= i < 60 -> outside_fertile_ages i = true).
Proof.
  intros HS HS60 Hm Hs Hcut.
  destruct fert_grid_cutoff as [Hout Hin].
  assert (Hout' : forall i, 35 <= i < 60 -> outside_fertile_ages i = true).
  { intros i Hi. apply (proj1 (forallb_forall _ _) Hout).
    apply in_seq. lia. }
  split; [|split; [|exact Hout']].
  2:{ intros i Hi.
      pose proof (proj1 (forallb_forall _ _) Hin i) as H.
      apply negb_true_iff. apply H. apply in_seq. lia. }
  clear Hout Hin.
  assert (Hk : 1 <= 60 / S) by (apply Nat.div_le_lower_bound; lia).
  assert (HSk : S * (60 / S) <= 60) by (apply Nat.Div0.mul_div_le).
  unfold get_fert, fert_rate_clamped in Hm.
  destruct (polyfit age_midpoint fert_data 4) as [c|]; [|discriminate].
  destruct (polyval (linspace (qc 15 1) (qc 75 1) 60) c) as [pv|] eqn:Hpv;
    [|discriminate].
  set (fr := zip_with fert_clamp (linspace (qc 15 1) (qc 75 1) 60) pv) in *.
  assert (Hlen : length fr = 60).
  { unfold fr. rewrite zip_with_length, (polyval_length _ _ Hpv).
    rewrite linspace_length. reflexivity. }
  assert (E : m = map (map (fun x => (x / Fin (qc 2 1))%num))
                    (tile_columns (condense mean S S fr) J)) by congruence.
  rewrite E. unfold tile_columns, condense.
  rewrite !map_map, nth_error_map, nth_error_seq.
  destruct (Nat.ltb_spec s S); [|lia]. cbn [option_map Nat.add].
  rewrite map_repeat. do 2 f_equal.
  apply mean_zeros_halved.
  - intros E0. apply (f_equal (@length _)) in E0.
    rewrite slice_length in E0 by nia. simpl in E0. nia.
  - apply Forall_forall. intros x Hx.
    apply In_slice_nth in Hx as (i & Hi & Hx).
    assert (Hi60 : i < 60).
    { rewrite <- Hlen. apply nth_error_Some. congruence. }
    apply nth_error_zip_with in Hx as (a & b & Ha & _ & ->).
    apply fert_clamp_outside.
    specialize (Hout' i ltac:(lia)). unfold outside_fertile_ages in Hout'.
    now rewrite (nth_error_nth _ _ _ Ha) in Hout'.
Qed.

End Rebinning.

(** ** What the calls read *)

Section Reads.

Import Np.
Variable polyfit : vec -> vec -> nat -> option vec.
Variable mort_data : list mort_row.

Lemma nth_error_slice (A : Type) (a b j : nat) (l : list A) :
  nth_error (slice a b l) j
  = if Nat.ltb (a + j) b then nth_error l (a + j) else None.
Proof. unfold slice. now rewrite nth_error_skipn, nth_error_firstn. Qed.

Lemma slice_set_nth (A : Type) (a b i : nat) (x : A) (l : list A) :
  i < a \/ b <= i -> slice a b (set_nth i x l) = slice a b l.
Proof.
  intros Hi. apply nth_error_ext. intros j. rewrite !nth_error_slice.
  destruct (Nat.ltb_spec (a + j) b); [|reflexivity].
  apply nth_error_set_nth_neq. lia.
Qed.

Lemma slice_slice (A : Type) (a b c d : nat) (l : list A) :
  slice a b (slice c d l) = slice (c + a) (Nat.min d (c + b)) l.
Proof.
  apply nth_error_ext. intros j. rewrite !nth_error_slice.
  destruct (Nat.ltb_spec (a + j) b), (Nat.ltb_spec (c + (a + j)) d),
    (Nat.ltb_spec (c + a + j) (Nat.min d (c + b)));
    try lia; try reflexivity.
  now rewrite Nat.add_assoc.
Qed.

Lemma get_immigration_of_fit (data_raw : table) (S J : nat) :
  get_immigration polyfit mort_data data_raw S J
  = match im_array polyfit mort_data data_raw with
    | Some im => immigration_of_fit im S J
    | None => None
    end.
Proof. reflexivity. Qed.

(** X10.  Of the 74 fitted immigration values, [get_immigration S J] never
    reads the one at position 14 (the child vector stops before it, the
    cohort groups start after it) nor those from position
    [15 + (S-1) * (60 / S)] on: whatever stands there, the result is the
    same. *)
Theorem immigration_unread_positions (data_raw : table) (S J i : nat)
  (x : num) (im : vec) :
  im_array polyfit mort_data data_raw = Some im ->
  i = 14 \/ 15 + (S - 1) * (60 / S) <= i ->
  get_immigration polyfit mort_data data_raw S J
  = immigration_of_fit (set_nth i x im) S J.
Proof.
  intros Him Hi. rewrite get_immigration_of_fit, Him.
  unfold immigration_of_fit. destruct S as [|S']; [reflexivity|].
  cbv zeta. f_equal. f_equal.
  - f_equal. unfold condense. apply map_ext_in. intros s Hs.
    apply in_seq in Hs. f_equal. rewrite !slice_slice.
    symmetry. apply slice_set_nth.
    destruct Hi as [->|Hi]; [left; lia|]. right.
    assert ((s + 1) * (60 / Datatypes.S S')
            <= (Datatypes.S S' - 1) * (60 / Datatypes.S S'))
      by (apply Nat.mul_le_mono_r; lia).
    lia.
  - symmetry. apply slice_set_nth. lia.
Qed.




End Reads.

(** ** The initial slice holds shares *)

Section Shares.

Import Np.
Variable polyfit : vec -> vec -> nat -> option vec.
Variable mort_data : list mort_row.
Variable data_raw : table.

Local Open Scope Qc_scope.





End Shares.

(** ** The further properties at the sample inputs *)

Section FurtherInstances.

Import Np.

(** One cohort, two periods. *)
Lemma one_cohort_raises_witness :
  get_omega Sample.line_fit Sample.mort Sample.pop (data_init Sample.pop) 1 2 2
  = None.
Proof.
  apply (@one_cohort_raises Sample.line_fit Sample.mort Sample.pop
           (data_init Sample.pop) 2 2).
  lia.
Defined.

(** The sample tables have what [get_immigration] needs. *)
Lemma tables_required_witness :
  length (children_rate Sample.mort) = 15 /\ 77 <= length Sample.pop.
Proof.
  apply (@tables_required Sample.line_fit Sample.mort Sample.pop
           (data_init Sample.pop) 4 2 1).
  left. apply is_some_not_None. vm_compute. reflexivity.
Defined.

(** The shape of the sample run. *)
Lemma get_omega_shape_witness :
  exists omega data',
    Sample.run = Some (omega, data') /\
    length omega = 3 /\
    Forall (fun m => length m = 3 /\ Forall (fun row => length row = 2) m)
           omega.
Proof.
  sample_run omega data' E.
  destruct (@get_omega_shape Sample.line_fit Sample.mort Sample.pop
              (data_init Sample.pop) 3 2 3 omega data' E)
    as (H1 & H2 & _).
  exists omega, data'. repeat split; first [reflexivity | assumption].
Defined.

(** Two periods are the first two of three. *)
Lemma get_omega_prefix_witness :
  exists omega data',
    Sample.run = Some (omega, data') /\
    get_omega Sample.line_fit Sample.mort Sample.pop (data_init Sample.pop)
      3 2 2
    = Some (firstn 2 omega, data').
Proof.
  sample_run omega data' E.
  exists omega, data'. split; [reflexivity|].
  apply (@get_omega_prefix Sample.line_fit Sample.mort Sample.pop
           (data_init Sample.pop) 3 2 3 2 omega data'); [lia | exact E].
Defined.

(** The children after the last pass of the sample run. *)
Lemma children_recurrence_witness :
  exists omega data' st' cur,
    Sample.run = Some (omega, data') /\
    omega_state_before Sample.line_fit Sample.mort Sample.pop
      (data_init Sample.pop) 3 2 3 3 = Some st' /\
    nth_error omega 2 = Some cur /\
    length (children st') = 15.
Proof.
  sample_run omega data' E.
  destruct (@children_recurrence Sample.line_fit Sample.mort Sample.pop
              (data_init Sample.pop) 3 2 3 2 omega data')
    as (imm & cim & fert & ch & st & st' & cur & _ & _ & _ & Hst' & Hcur
        & Hlen & _); [lia | exact E |].
  exists omega, data', st', cur.
  repeat split; first [reflexivity | assumption].
Defined.

(** Sixty-one cohorts. *)
Lemma more_cohorts_than_points_witness :
  exists m,
    get_survival Sample.line_fit Sample.mort 61 2 = Some m /\
    m = repeat (repeat (Fin 1%Qc) 2) 60 ++ [repeat (Fin 0%Qc) 2].
Proof.
  destruct (get_survival Sample.line_fit Sample.mort 61 2) as [m|] eqn:E;
    [|exfalso; revert E; apply is_some_not_None; vm_compute; reflexivity].
  exists m. split; [reflexivity|].
  destruct (@more_cohorts_than_points Sample.line_fit Sample.mort Sample.pop
              61 2) as [H _]; [lia|].
  exact (H m E).
Defined.

(** Sixty cohorts, a point each. *)
Lemma single_point_groups_bounded_witness :
  exists m,
    get_survival Sample.line_fit Sample.mort 60 1 = Some m /\
    Forall (Forall (fun x => (x <=? Fin 1%Qc)%num = true \/ x = NaN)) m.
Proof.
  destruct (get_survival Sample.line_fit Sample.mort 60 1) as [m|] eqn:E;
    [|exfalso; revert E; apply is_some_not_None; vm_compute; reflexivity].
  exists m. split; [reflexivity|].
  apply (@single_point_groups_bounded Sample.line_fit Sample.mort 60 1 m);
    [lia | exact E].
Defined.

(** Four cohorts: the last one starts at point 45. *)
Lemma fertility_cutoff_witness :
  exists m ch,
    get_fert Sample.line_fit 4 2 = Some (m, ch) /\
    nth_error m 3 = Some (repeat (Fin 0%Qc) 2).
Proof.
  destruct (get_fert Sample.line_fit 4 2) as [[m ch]|] eqn:E;
    [|exfalso; revert E; apply is_some_not_None; vm_compute; reflexivity].
  exists m, ch. split; [reflexivity|].
  apply (@fertility_cutoff Sample.line_fit 4 2 3 m ch);
    [lia | lia | exact E | lia | change (60 / 4) with 15; lia].
Defined.

(** The fitted value at position 14 replaced by NaN. *)
Lemma immigration_unread_positions_witness :
  exists im,
    im_array Sample.line_fit Sample.mort Sample.pop = Some im /\
    get_immigration Sample.line_fit Sample.mort Sample.pop 4 2
    = immigration_of_fit (set_nth 14 NaN im) 4 2.
Proof.
  destruct (im_array Sample.line_fit Sample.mort Sample.pop) as [im|] eqn:E;
    [|exfalso; revert E; apply is_some_not_None; vm_compute; reflexivity].
  exists im. split; [reflexivity|].
  apply (@immigration_unread_positions Sample.line_fit Sample.mort
           Sample.pop 4 2 14 NaN im); [exact E | left; reflexivity].
Defined.



End FurtherInstances.
